(** * Key validator: extraction, result table and worker pool

    A shallow embedding of [src/App.tsx] (the key extractor, the seeding of
    the result table, the work queue, the worker loop [processNext], the
    stop handler and [maskKey]) together with the properties of the
    specification that concern them.

    Conventions of the embedding.
    - A JavaScript string is a [string]: a sequence of code units.  The
      token pattern only mentions ASCII characters, so one [ascii] per code
      unit is enough for everything the matcher looks at.
    - A [File] is modelled by its content, the bytes, one [ascii] per
      byte; [slice] is by byte position and [text ()] decodes the bytes of
      a chunk as UTF-8 ([Blob.text]): it is the identity on ASCII bytes.
    - Indices that JavaScript computes as numbers are [Z] where the code
      relies on a negative value ([lastIndexOf] returning [-1]) and [nat]
      elsewhere.
    - The event loop is single threaded: the code between two [await]s of a
      worker runs atomically.  One transition of the worker relation is one
      such uninterrupted piece of [processNext]. *)

From Stdlib Require Import ZArith Ascii String List Lia Bool Sorted Permutation.
From Stdlib Require Import DecimalString DecimalNat.
From stdpp Require Import base decidable list strings sorting relations.
Import ListNotations.

Open Scope Z_scope.
Open Scope nat_scope.
Open Scope list_scope.

(** ** JavaScript string primitives *)

Module Js.

Abbreviation size := String.length.

(** [s.substring(start)] and [s.substring(start, end)] for arguments
    that are already integers: both are clamped to [0, length] and swapped
    when [start > end]. *)
Definition clamp (len : nat) (i : Z) : nat :=
  Nat.min (Z.to_nat i) len.

Definition substring (s : string) (start stop : Z) : string :=
  let a := clamp (size s) start in
  let b := clamp (size s) stop in
  String.substring (Nat.min a b) (Nat.max a b - Nat.min a b) s.

Definition substringFrom (s : string) (start : Z) : string :=
  substring s start (Z.of_nat (size s)).

(** [s.lastIndexOf(c)] for a one-character needle: the greatest index
    holding [c], or [-1]. *)
Fixpoint lastIndexOf (c : ascii) (s : string) : Z :=
  match s with
  | EmptyString => (-1)%Z
  | String d r =>
      let i := lastIndexOf c r in
      if (0 <=? i)%Z then (i + 1)%Z
      else if Ascii.eqb d c then 0%Z else (-1)%Z
  end.

(** [s.startsWith(p)]. *)
Definition startsWith (s p : string) : bool := String.prefix p s.

(** [blob.slice(a, b)], on a file given by its bytes, for
    [0 <= a <= b]: the bytes from position [a] up to position [b]. *)
Definition slice (file : string) (a b : nat) : string :=
  String.substring (Nat.min a (size file))
                   (Nat.min b (size file) - Nat.min a (size file)) file.

(** A [Set<string>] keeps its elements in insertion order and ignores the
    insertion of an element it already has; [Array.from] lists it in that
    order. *)
Definition setAdd (keys : list string) (k : string) : list string :=
  if decide (k ∈ keys) then keys else keys ++ [k].

Definition setAddAll (keys : list string) (ks : list string) : list string :=
  fold_left setAdd ks keys.

Definition arrayFromSet (ks : list string) : list string :=
  setAddAll [] ks.

End Js.

(** The characters of a string, and the rest of a string from a position. *)
Definition chars (s : string) : list ascii := list_ascii_of_string s.

Definition dropS (n : nat) (s : string) : string :=
  String.substring n (Js.size s - n) s.

Definition newline : ascii := "010"%char.

(** ** The token pattern [/sk-[a-zA-Z0-9_-]+/g] *)

(** The character class [[a-zA-Z0-9_-]]. *)
Definition isKeyChar (c : ascii) : bool :=
  let n := nat_of_ascii c in
  ((97 <=? n) && (n <=? 122)) || ((65 <=? n) && (n <=? 90))
  || ((48 <=? n) && (n <=? 57)) || (n =? 95) || (n =? 45).

(** The greedy [[...]+]: the longest run of class characters at the head. *)
Fixpoint takeKeyChars (s : string) : string :=
  match s with
  | String c r => if isKeyChar c then String c (takeKeyChars r) else EmptyString
  | EmptyString => EmptyString
  end.

(** One attempt of the pattern at the head of [s].  Nothing follows the
    greedy class in the pattern, so the engine never backtracks into it. *)
Definition matchAt (s : string) : option string :=
  match s with
  | String c1 (String c2 (String c3 r)) =>
      if Ascii.eqb c1 "s"%char && Ascii.eqb c2 "k"%char && Ascii.eqb c3 "-"%char then
        match takeKeyChars r with
        | EmptyString => None
        | body => Some (String c1 (String c2 (String c3 body)))
        end
      else None
  | _ => None
  end.

(** The global scan: try the pattern at the current position; on success
    emit the token and resume right after it ([skip] counts the characters
    of the token still to be passed over), on failure move one character
    on. *)
Fixpoint matchFrom (skip : nat) (s : string) : list string :=
  match s with
  | EmptyString => []
  | String c r =>
      match skip with
      | S k => matchFrom k r
      | O =>
          match matchAt s with
          | Some tok => tok :: matchFrom (String.length tok - 1) r
          | None => matchFrom 0 r
          end
      end
  end.

Definition matchAll (s : string) : list string := matchFrom 0 s.

(** [s.match(/sk-[a-zA-Z0-9_-]+/g)]: [null] when nothing matches. *)
Definition jsMatch (s : string) : option (list string) :=
  match matchAll s with
  | [] => None
  | ms => Some ms
  end.

(** The non-streaming extraction of [handleValidate] (and of the
    spreadsheet and document branches of [processFile]):
    [Array.from(new Set(input.match(...) || []))]. *)
Definition uniqueKeysOf (input : string) : list string :=
  Js.arrayFromSet (match jsMatch input with Some ms => ms | None => [] end).

(** The shape of a credential: ["sk-"] and then one or more characters of
    the class. *)
Definition isToken (tok : string) : Prop :=
  exists body, tok = "sk-" +:+ body /\ body <> ""
               /\ Forall (fun c => isKeyChar c = true) (chars body).

Definition containsToken (s : string) : Prop :=
  exists before tok after, s = before +:+ tok +:+ after /\ isToken tok.

(** ** [maskKey] *)

Definition maskKey (key : string) : string :=
  if Js.size key <=? 10 then "***"
  else Js.substring key 0 7 +:+ "..."
       +:+ Js.substringFrom key (Z.of_nat (Js.size key) - 4).

(** The two segments [maskKey] shows of a long key, and the segment
    between them, which it leaves out. *)
Definition shownHead (key : string) : string := Js.substring key 0 7.

Definition shownTail (key : string) : string :=
  Js.substringFrom key (Z.of_nat (Js.size key) - 4).

Definition hiddenPart (key : string) : string :=
  Js.substring key 7 (Z.of_nat (Js.size key) - 4).

(** ** [Blob.text()]

    [text()] decodes the bytes of a blob as UTF-8, the way the Encoding
    Standard says: a byte order mark (EF BB BF) at the start of the blob is
    dropped; an ASCII byte gives itself; a well-formed sequence of two or
    three bytes gives one code unit and one of four bytes gives two (a
    surrogate pair); an ill-formed piece gives U+FFFD, and the byte that
    ends it is read again.  Every code unit that does not come from an
    ASCII byte is above 127.  The extractor only compares code units with
    the newline and with the characters of the pattern and copies pieces
    of the text, so such a code unit is kept as the one character
    [Blob.other], whatever its value. *)
Module Blob.

Definition other : ascii := "255"%char.

(** The state of the decoder between two bytes: at the start of a
    character, or inside a sequence, with the number of bytes it still
    needs, the bounds of the next byte and whether the character takes two
    code units. *)
Inductive decoder :=
| Fresh
| Pending (needed lower upper : nat) (wide : bool).

(** The first byte of a sequence of two, three or four bytes. *)
Definition lead (n : nat) : option decoder :=
  if (194 <=? n) && (n <=? 223) then Some (Pending 1 128 191 false)
  else if (224 <=? n) && (n <=? 239) then
    Some (Pending 2 (if n =? 224 then 160 else 128)
                    (if n =? 237 then 159 else 191) false)
  else if (240 <=? n) && (n <=? 244) then
    Some (Pending 3 (if n =? 240 then 144 else 128)
                    (if n =? 244 then 143 else 191) true)
  else None.

(** The code units of a character above 127. *)
Definition emit (wide : bool) (rest : string) : string :=
  if wide then String other (String other rest) else String other rest.

Fixpoint decode (st : decoder) (bytes : string) : string :=
  match bytes with
  | EmptyString =>
      match st with
      | Fresh => EmptyString
      | Pending _ _ _ _ => String other EmptyString
      end
  | String b rest =>
      let n := nat_of_ascii b in
      let fresh :=
        if n <=? 127 then String b (decode Fresh rest)
        else match lead n with
             | Some st' => decode st' rest
             | None => String other (decode Fresh rest)
             end in
      match st with
      | Fresh => fresh
      | Pending needed lower upper wide =>
          if (lower <=? n) && (n <=? upper) then
            match needed with
            | 1 => emit wide (decode Fresh rest)
            | _ => decode (Pending (needed - 1) 128 191 wide) rest
            end
          else String other fresh
      end
  end.

Definition stripBOM (bytes : string) : string :=
  match bytes with
  | String b1 (String b2 (String b3 rest)) =>
      if Ascii.eqb b1 "239"%char && Ascii.eqb b2 "187"%char
         && Ascii.eqb b3 "191"%char
      then rest else bytes
  | _ => bytes
  end.

Definition text (bytes : string) : string := decode Fresh (stripBOM bytes).

End Blob.

(** A file of ASCII bytes only. *)
Definition isAscii (bytes : string) : bool :=
  forallb (fun b => nat_of_ascii b <? 128) (chars bytes).

(** ** [extractKeysFromText] *)

Record cursor := Cursor {
  offset : nat;
  tail : string;
  keys : list string
}.

Definition addMatches (keys : list string) (s : string) : list string :=
  match jsMatch s with
  | Some ms => Js.setAddAll keys ms
  | None => keys
  end.

(** Does the iteration at this cursor hold a tail back?  The guard of the
    [if] in the loop body. *)
Definition holdsBack (CHUNK_SIZE : nat) (file : string) (st : cursor) : bool :=
  let text := Blob.text (Js.slice file (offset st) (offset st + CHUNK_SIZE)) in
  let processText := tail st +:+ text in
  (0 <? Js.lastIndexOf newline processText)%Z
  && (offset st + CHUNK_SIZE <? Js.size file).

(** One iteration of the [while] loop. *)
Definition chunkStep (CHUNK_SIZE : nat) (file : string) (st : cursor) : cursor :=
  let text := Blob.text (Js.slice file (offset st) (offset st + CHUNK_SIZE)) in
  let processText := tail st +:+ text in
  let lastNewline := Js.lastIndexOf newline processText in
  let currentChunk :=
    if holdsBack CHUNK_SIZE file st
    then Js.substring processText 0 lastNewline else processText in
  let tail' :=
    if holdsBack CHUNK_SIZE file st
    then Js.substringFrom processText lastNewline else "" in
  {| offset := offset st + CHUNK_SIZE;
     tail := tail';
     keys := addMatches (keys st) currentChunk |}.

(** The loop, with the number of iterations bounded by [fuel]; [None] is a
    loop that has not finished within the bound. *)
Fixpoint extractLoop (fuel : nat) (CHUNK_SIZE : nat) (file : string)
    (st : cursor) : option cursor :=
  if offset st <? Js.size file then
    match fuel with
    | O => None
    | S fuel' => extractLoop fuel' CHUNK_SIZE file (chunkStep CHUNK_SIZE file st)
    end
  else Some st.

(** The whole function.  Every iteration advances [offset] by the chunk
    size, so [size file] iterations are enough for any positive chunk size;
    the result is [None] only for the chunk size [0], with which the source
    loop does not end. *)
Definition extractKeysFromText (CHUNK_SIZE : nat) (file : string)
    : option (list string) :=
  match extractLoop (Js.size file) CHUNK_SIZE file
          {| offset := 0; tail := ""; keys := [] |} with
  | Some st =>
      Some (if decide (tail st = "") then keys st
            else addMatches (keys st) (tail st))
  | None => None
  end.

(** The chunk size of the source: 10 MiB. *)
Definition CHUNK_SIZE : nat := 1024 * 1024 * 10.

(** Every iteration for which a later chunk remains holds a tail back:
    its buffer (carried tail, then chunk) has a newline at an index
    greater than [0]. *)
Fixpoint alwaysHoldsBack (fuel : nat) (CHUNK_SIZE : nat) (file : string)
    (st : cursor) : bool :=
  match fuel with
  | O => true
  | S fuel' =>
      if offset st + CHUNK_SIZE <? Js.size file then
        holdsBack CHUNK_SIZE file st
        && alwaysHoldsBack fuel' CHUNK_SIZE file (chunkStep CHUNK_SIZE file st)
      else true
  end.

Definition newlineBeforeEveryBoundary (CHUNK_SIZE : nat) (file : string) : bool :=
  alwaysHoldsBack (Js.size file) CHUNK_SIZE file
    {| offset := 0; tail := ""; keys := [] |}.


(** ** The result table *)

Inductive Status := pending | validating | valid | invalid | error.

Global Instance Status_eq_dec : EqDecision Status.
Proof. solve_decision. Defined.

(** The values [statusRef.current] can hold; the React state [status]
    holds the first three only. *)
Inductive RunState := idle | running | paused | stopped.

Global Instance RunState_eq_dec : EqDecision RunState.
Proof. solve_decision. Defined.

#[local] Unset Elimination Schemes.

(** A value produced by [JSON.parse].  An object is given by its own
    properties, each name once; of a number only whether it is zero is
    ever looked at, an integer stands for it. *)
Inductive json :=
| JNull
| JBool (b : bool)
| JNum (n : Z)
| JStr (s : string)
| JArr (items : list json)
| JObj (fields : list (string * json)).

#[local] Set Elimination Schemes.

(** The places of [processNext] at which the engine itself can raise a
    [TypeError] on a body of unexpected shape. *)
Inductive typeErrorSite :=
| ReadDataOfNull        (* [data.data] with [data] null *)
| CallMapOnNonArray     (* [data.data.map] with [data.data] not an array *)
| ReadIdOfNull          (* [m.id] with [m] null *)
| CallStartsWithOnNonString. (* [m.startsWith] with [m] not a string *)

(** What ends up in [errorMsg]: a JSON value stored as it is (a string is
    [JStr]), or the message of a [TypeError] of the engine, whose text is
    the engine's. *)
Inductive message :=
| FromJson (j : json)
| OfTypeError (site : typeErrorSite).

Record KeyResult := {
  key : string;
  status : Status;
  models : list string;
  errorMsg : option message   (* [None]: the property is absent *)
}.

Definition setStatus (st : Status) (r : KeyResult) : KeyResult :=
  {| key := key r; status := st; models := models r; errorMsg := errorMsg r |}.

Definition setModels (ms : list string) (r : KeyResult) : KeyResult :=
  {| key := key r; status := status r; models := ms; errorMsg := errorMsg r |}.

Definition setErrorMsg (m : message) (r : KeyResult) : KeyResult :=
  {| key := key r; status := status r; models := models r; errorMsg := Some m |}.

(** [{ key: k, status: 'pending', models: [] }] *)
Definition freshEntry (k : string) : KeyResult :=
  {| key := k; status := pending; models := []; errorMsg := None |}.

(** The state the handlers read and write. *)
Record App := {
  input : string;
  uiStatus : RunState;            (* the React state [status] *)
  statusRef : RunState;           (* [statusRef.current] *)
  results : list KeyResult;       (* [resultsRef.current] *)
  concurrencyLimit : Z
}.

Definition updateStatus (newStatus : RunState) (a : App) : App :=
  {| input := input a;
     uiStatus := if decide (newStatus = stopped) then idle else newStatus;
     statusRef := newStatus;
     results := results a;
     concurrencyLimit := concurrencyLimit a |}.

Definition withResults (rs : list KeyResult) (a : App) : App :=
  {| input := input a; uiStatus := uiStatus a; statusRef := statusRef a;
     results := rs; concurrencyLimit := concurrencyLimit a |}.

(** *** Seeding (lines 278-288 of [handleValidate]) *)

(** [a.every((k, i) => k === b[i])]; beyond the end of [b] the comparison
    is with [undefined] and fails. *)
Definition everyEqualAt (a b : list string) : bool :=
  forallb (fun '(i, k) => bool_decide (b !! i = Some k)) (imap pair a).

Definition keysMatch (uniqueKeys existingKeys : list string) : bool :=
  (length uniqueKeys =? length existingKeys)
  && everyEqualAt uniqueKeys existingKeys.

Definition seed (uniqueKeys : list string) (table : list KeyResult)
    : list KeyResult :=
  let existingKeys := key <$> table in
  if negb (keysMatch uniqueKeys existingKeys)
  then freshEntry <$> uniqueKeys
  else table.

(** *** The work queue (lines 292-295) *)

(** [item.status === 'pending' || item.status === 'error'] *)
Definition queued (st : Status) : Prop := st = pending \/ st = error.

Global Instance queued_dec st : Decision (queued st).
Proof. unfold queued. apply _. Defined.

Definition buildQueue (table : list KeyResult) : list nat :=
  fst <$> filter (fun item : nat * Status => queued item.2)
                 (imap (fun idx r => (idx, status r)) table).

(** [Math.max(1, Math.min(50, concurrencyLimit))] *)
Definition clampConcurrency (limit : Z) : Z := Z.max 1 (Z.min 50 limit).

(** ** Classification of a response *)

Definition ok (httpStatus : nat) : bool :=
  (200 <=? httpStatus) && (httpStatus <=? 299).

(** What [await response.json()] gives: a parsed value, or a rejection
    with the message of its error. *)
Inductive bodyResult :=
| BodyJson (j : json)
| BodyRejected (msg : string).

(** Property access [v.name]. *)
Inductive access := Throws | Undefined | Value (j : json).

Fixpoint field (name : string) (fields : list (string * json)) : option json :=
  match fields with
  | [] => None
  | (n, v) :: rest => if String.eqb n name then Some v else field name rest
  end.

Definition prop (name : string) (v : json) : access :=
  match v with
  | JNull => Throws
  | JObj fields =>
      match field name fields with Some j => Value j | None => Undefined end
  | _ => Undefined
  end.

Definition truthy (v : json) : bool :=
  match v with
  | JNull => false
  | JBool b => b
  | JNum n => negb (n =? 0)%Z
  | JStr s => negb (String.eqb s "")
  | JArr _ | JObj _ => true
  end.

Definition hasModelPrefix (m : string) : bool :=
  Js.startsWith m "gpt-" || Js.startsWith m "o1" || Js.startsWith m "o3"
  || Js.startsWith m "dall-e" || Js.startsWith m "whisper"
  || Js.startsWith m "tts" || Js.startsWith m "text-embedding".

(** [Array.prototype.sort()] without a comparator, on strings: ascending
    by code units. *)
Definition jsSort (l : list string) : list string := merge_sort String.le l.

(** [.map((m: any) => m.id)]: throws at the first [null] element. *)
Fixpoint mapId (items : list json) : option (list access) :=
  match items with
  | [] => Some []
  | m :: rest =>
      match prop "id" m with
      | Throws => None
      | a => match mapId rest with Some l => Some (a :: l) | None => None end
      end
  end.

(** [.filter((m: string) => m.startsWith(...) || ...)]: throws at the first
    element that is not a string. *)
Fixpoint filterModels (ids : list access) : option (list string) :=
  match ids with
  | [] => Some []
  | Value (JStr m) :: rest =>
      match filterModels rest with
      | Some l => Some (if hasModelPrefix m then m :: l else l)
      | None => None
      end
  | _ :: _ => None
  end.

(** [data.data.map(...).filter(...)] followed by [models.sort()]. *)
Definition modelsOf (data : json) : typeErrorSite + list string :=
  match prop "data" data with
  | Throws => inl ReadDataOfNull
  | Undefined | Value JNull => inl CallMapOnNonArray
  | Value (JArr items) =>
      match mapId items with
      | None => inl ReadIdOfNull
      | Some ids =>
          match filterModels ids with
          | None => inl CallStartsWithOnNonString
          | Some ms => inr (jsSort ms)
          end
      end
  | Value _ => inl CallMapOnNonArray
  end.

(** [`HTTP ${response.status}`] *)
Definition httpStatusText (httpStatus : nat) : string :=
  "HTTP " +:+ NilEmpty.string_of_uint (Nat.to_uint httpStatus).

(** The [else] branch: the message of a response that is not ok. *)
Definition errorMessageOf (httpStatus : nat) (body : bodyResult) : json :=
  match body with
  | BodyRejected _ => JStr (httpStatusText httpStatus)
  | BodyJson errData =>
      match prop "error" errData with
      | Value e =>
          if truthy e then
            match prop "message" e with
            | Value m =>
                if truthy m then m else JStr (httpStatusText httpStatus)
            | _ => JStr (httpStatusText httpStatus)
            end
          else JStr (httpStatusText httpStatus)
      | _ => JStr (httpStatusText httpStatus)
      end
  end.

Inductive Outcome :=
| Valid (ms : list string)
| Invalid (m : json)
| Error (m : message).

(** Lines 329-360 for a response that has arrived: the two branches of
    [if (response.ok)] and the [catch] around them. *)
Definition classifyResponse (httpStatus : nat) (body : bodyResult) : Outcome :=
  if ok httpStatus then
    match body with
    | BodyRejected msg => Error (FromJson (JStr msg))
    | BodyJson data =>
        match modelsOf data with
        | inr ms => Valid ms
        | inl site => Error (OfTypeError site)
        end
    end
  else Invalid (errorMessageOf httpStatus body).

(** The [catch] for a [fetch] that rejects. *)
Definition classifyRejected (msg : string) : Outcome :=
  Error (FromJson (JStr msg)).

(** The assignments each outcome makes to the entry. *)
Definition applyOutcome (o : Outcome) (r : KeyResult) : KeyResult :=
  match o with
  | Valid ms => setModels ms (setStatus valid r)
  | Invalid m => setErrorMsg (FromJson m) (setStatus invalid r)
  | Error m => setErrorMsg m (setStatus error r)
  end.


(** The prefixes [hasModelPrefix] tests, in the order of the source. *)
Definition modelPrefixes : list string :=
  ["gpt-"; "o1"; "o3"; "dall-e"; "whisper"; "tts"; "text-embedding"].

(** The [error.message] field of a body, when the body is JSON and has
    it. *)
Definition errorMessageField (body : bodyResult) : option json :=
  match body with
  | BodyJson errData =>
      match prop "error" errData with
      | Value e =>
          match prop "message" e with Value m => Some m | _ => None end
      | _ => None
      end
  | BodyRejected _ => None
  end.

(** The values a condition of JavaScript takes as false, among those
    [JSON.parse] gives: [null], [false], [0] and the empty string. *)
Inductive falsy : json -> Prop :=
| falsy_null : falsy JNull
| falsy_false : falsy (JBool false)
| falsy_zero : falsy (JNum 0)
| falsy_empty : falsy (JStr "").

(** [digits] is the decimal notation of [n], without leading zeros. *)
Definition decimalOf (digits : string) (n : nat) : Prop :=
  exists d, NilEmpty.uint_of_string digits = Some d
            /\ Decimal.unorm d = d /\ Nat.of_uint d = n.

(** Sample bodies. *)
Definition sample_empty_message_body : json :=
  JObj [("error", JObj [("message", JStr ""); ("type", JStr "not_found")])].

Definition sample_models_body : json :=
  JObj [("object", JStr "list");
        ("data", JArr [JObj [("id", JStr "whisper-1"); ("object", JStr "model")];
                       JObj [("id", JStr "babbage-002")];
                       JObj [("id", JStr "gpt-4o")];
                       JObj [("id", JStr "o1-mini")]])].

Definition sample_error_body : json :=
  JObj [("error", JObj [("message", JStr "Incorrect API key provided");
                        ("code", JStr "invalid_api_key")])].

(** ** One run of [handleValidate] *)

(** Where a worker ([processNext]) is suspended. *)
Inductive Worker :=
| Ready                       (* called, or in its 300 ms delay *)
| PauseWait                   (* in the 200 ms delay of the pause loop *)
| Fetching (i : nat)          (* awaiting [fetch] for entry [i] *)
| ReadingBody (i : nat) (httpStatus : nat)  (* awaiting [response.json()] *)
| Done                        (* left the loop *)
| Crashed.                    (* an exception left [processNext] *)

Global Instance Worker_eq_dec : EqDecision Worker.
Proof. solve_decision. Defined.

(** The index a worker has claimed and not yet given its outcome. *)
Definition held (w : Worker) : option nat :=
  match w with
  | Fetching i | ReadingBody i _ => Some i
  | _ => None
  end.

Record Sys := {
  app : App;
  queue : list nat;          (* the [queue] of this run *)
  workers : list Worker;     (* the promises in [workers] *)
  joined : bool              (* the code after [Promise.all] has run *)
}.

Definition withApp (a : App) (s : Sys) : Sys :=
  {| app := a; queue := queue s; workers := workers s; joined := joined s |}.

(** The synchronous part of [handleValidate].  A click while paused only
    resumes; without keys nothing happens; otherwise the table is seeded,
    the queue built and the workers called. *)
Inductive Started :=
| Resumed (a : App)
| NoKeys (a : App)
| Run (s : Sys).

Definition handleValidate (a : App) : Started :=
  if decide (uiStatus a = paused) then Resumed (updateStatus running a)
  else
    let uniqueKeys := uniqueKeysOf (input a) in
    if length uniqueKeys =? 0 then NoKeys a
    else
      let a1 := withResults (seed uniqueKeys (results a)) a in
      let a2 := updateStatus running a1 in
      let queue := buildQueue (results a2) in
      let CONCURRENCY := clampConcurrency (concurrencyLimit a2) in
      let concurrency := Z.min CONCURRENCY (Z.of_nat (length queue)) in
      Run {| app := a2; queue := queue;
             workers := replicate (Z.to_nat concurrency) Ready;
             joined := false |}.

Definition handlePause (a : App) : App := updateStatus paused a.

Definition revertValidating (r : KeyResult) : KeyResult :=
  if decide (status r = validating) then setStatus pending r else r.

Definition handleStop (a : App) : App :=
  let a1 := updateStatus stopped a in
  withResults (revertValidating <$> results a1) a1.

(** The table read back from storage when the page loads (lines 102-104):
    [parsed.map(r => r.status === 'validating' ? { ...r, status: 'pending' } : r)]. *)
Definition loadResults (parsed : list KeyResult) : list KeyResult :=
  revertValidating <$> parsed.

(** [resultsRef.current[i].f = v]: a [TypeError] when there is no entry. *)
Definition writeAt (i : nat) (f : KeyResult -> KeyResult)
    (table : list KeyResult) : option (list KeyResult) :=
  match table !! i with
  | Some r => Some (<[i := f r]> table)
  | None => None
  end.

(** The state after worker [w] has moved to [pc]. *)
Definition moved (w : nat) (pc : Worker) (s : Sys) : Sys :=
  {| app := app s; queue := queue s; workers := <[w := pc]> (workers s);
     joined := joined s |}.

(** A write to entry [i] by worker [w], which then is at [pc]; the worker
    crashes when the write throws. *)
Definition writes (w i : nat) (f : KeyResult -> KeyResult) (pc : Worker)
    (s : Sys) : Sys :=
  match writeAt i f (results (app s)) with
  | Some table => moved w pc (withApp (withResults table (app s)) s)
  | None => moved w Crashed s
  end.

(** [const i = queue.shift()] and what follows up to the [fetch]. *)
Definition dequeue (w : nat) (s : Sys) : Sys :=
  match queue s with
  | [] => moved w Done s
  | i :: rest =>
      writes w i (setStatus validating) (Fetching i)
        {| app := app s; queue := rest; workers := workers s;
           joined := joined s |}
  end.

(** From the test of the outer [while] to the next [await]. *)
Definition loopHead (w : nat) (s : Sys) : Sys :=
  match queue s with
  | [] => moved w Done s
  | _ :: _ =>
      match statusRef (app s) with
      | stopped => moved w Done s
      | paused => moved w PauseWait s
      | _ => dequeue w s
      end
  end.

(** From the end of a 200 ms delay of the pause loop to the next
    [await]. *)
Definition pauseWake (w : nat) (s : Sys) : Sys :=
  match statusRef (app s) with
  | stopped => moved w Done s
  | paused => moved w PauseWait s
  | _ => dequeue w s
  end.

(** What [await fetch(...)] gives: a response (of which the status line
    is known) or a rejection with the message of its error. *)
Inductive fetchResult :=
| Resolved (httpStatus : nat)
| Rejected (msg : string).

(** From the end of [await fetch] to the next [await]. *)
Definition fetchDone (w i : nat) (r : fetchResult) (s : Sys) : Sys :=
  match r with
  | Resolved httpStatus =>
      if decide (statusRef (app s) = stopped)
      then writes w i (setStatus pending) Done s
      else moved w (ReadingBody i httpStatus) s
  | Rejected msg => writes w i (applyOutcome (classifyRejected msg)) Ready s
  end.

(** From the end of [await response.json()] to the 300 ms delay. *)
Definition bodyDone (w i httpStatus : nat) (b : bodyResult) (s : Sys) : Sys :=
  writes w i (applyOutcome (classifyResponse httpStatus b)) Ready s.

(** The code after [await Promise.all(workers)]. *)
Definition join (s : Sys) : Sys :=
  {| app := if decide (statusRef (app s) = stopped) then app s
            else updateStatus idle (app s);
     queue := queue s; workers := workers s; joined := true |}.

(** What can happen during a run: a timer or the first call wakes a
    worker, a [fetch] or a body read of a worker ends, the operator clicks
    pause, resume or stop, all workers have ended.  In the source the first
    piece of every worker runs inside [handleValidate], before anything
    else; here other events may come before it, which only adds runs. *)
Inductive Event :=
| Wake (w : nat)
| FetchEnds (w : nat) (r : fetchResult)
| BodyEnds (w : nat) (b : bodyResult)
| ClickPause
| ClickResume
| ClickStop
| AllEnded.

(** One event; [None] when the event cannot happen in this state. *)
Definition fire (e : Event) (s : Sys) : option Sys :=
  match e with
  | Wake w =>
      match workers s !! w with
      | Some Ready => Some (loopHead w s)
      | Some PauseWait => Some (pauseWake w s)
      | _ => None
      end
  | FetchEnds w r =>
      match workers s !! w with
      | Some (Fetching i) => Some (fetchDone w i r s)
      | _ => None
      end
  | BodyEnds w b =>
      match workers s !! w with
      | Some (ReadingBody i httpStatus) => Some (bodyDone w i httpStatus b s)
      | _ => None
      end
  | ClickPause => Some (withApp (handlePause (app s)) s)
  | ClickResume =>
      if decide (uiStatus (app s) = paused)
      then Some (withApp (updateStatus running (app s)) s)
      else None
  | ClickStop => Some (withApp (handleStop (app s)) s)
  | AllEnded =>
      if bool_decide (Forall (fun w => w = Done) (workers s)) && negb (joined s)
      then Some (join s) else None
  end.

Fixpoint fireAll (es : list Event) (s : Sys) : option Sys :=
  match es with
  | [] => Some s
  | e :: rest =>
      match fire e s with
      | Some s' => fireAll rest s'
      | None => None
      end
  end.

Definition reachable (s0 s : Sys) : Prop :=
  exists es, fireAll es s0 = Some s.

(** Sample states. *)
Definition two_key_app : App :=
  {| input := "sk-A" +:+ String newline ("sk-B" +:+ String newline "sk-A");
     uiStatus := idle; statusRef := idle; results := [];
     concurrencyLimit := 2 |}.

Definition two_key_run : Sys :=
  {| app := {| input := input two_key_app; uiStatus := running;
               statusRef := running;
               results := [freshEntry "sk-A"; freshEntry "sk-B"];
               concurrencyLimit := 2 |};
     queue := [0; 1]; workers := [Ready; Ready]; joined := false |}.

Definition one_key_app : App :=
  {| input := "sk-A"; uiStatus := idle; statusRef := idle; results := [];
     concurrencyLimit := 1 |}.

Definition one_key_run : Sys :=
  {| app := {| input := "sk-A"; uiStatus := running; statusRef := running;
               results := [freshEntry "sk-A"]; concurrencyLimit := 1 |};
     queue := [0]; workers := [Ready]; joined := false |}.

(** A table left by a run in which the check of the key failed in
    transport, and the run the next click starts on it. *)
Definition failed_entry : KeyResult :=
  {| key := "sk-A"; status := error; models := [];
     errorMsg := Some (FromJson (JStr "Failed to fetch")) |}.

Definition retry_app : App :=
  {| input := "sk-A"; uiStatus := idle; statusRef := idle;
     results := [failed_entry]; concurrencyLimit := 1 |}.

Definition retry_run : Sys :=
  {| app := {| input := "sk-A"; uiStatus := running; statusRef := running;
               results := [failed_entry]; concurrencyLimit := 1 |};
     queue := [0]; workers := [Ready]; joined := false |}.



(** An input without a key, over a table with an outcome. *)
Definition keyless_app : App :=
  {| input := "sk- is a prefix, not a key"; uiStatus := idle;
     statusRef := idle; results := [failed_entry]; concurrencyLimit := 3 |}.

(** The run on one key after its worker has started the [fetch] and the
    operator has clicked stop: the stop handler has put the entry back to
    [pending], the [fetch] is still in flight. *)
Definition stopped_in_flight : Sys :=
  {| app := {| input := "sk-A"; uiStatus := idle; statusRef := stopped;
               results := [freshEntry "sk-A"]; concurrencyLimit := 1 |};
     queue := []; workers := [Fetching 0]; joined := false |}.

Definition noValidating (table : list KeyResult) : Prop :=
  Forall (fun r => status r <> validating) table.

(** Events that are not a click on pause or resume. *)
Definition keepsStopped (e : Event) : Prop :=
  match e with
  | ClickPause | ClickResume => False
  | _ => True
  end.

(** The shapes a transition of a run can have: the operator acts; a
    worker moves on without touching the table; a worker claims the head
    of the queue; a worker writes the outcome of the entry it holds; a
    write finds no entry. *)
Inductive Step : Sys -> Sys -> Prop :=
| StepControl s s' :
    workers s' = workers s -> queue s' = queue s ->
    results (app s') = results (app s)
    \/ results (app s') = revertValidating <$> results (app s) ->
    Step s s'
| StepMove s s' w pc0 pc1 :
    workers s !! w = Some pc0 ->
    workers s' = <[w := pc1]> (workers s) ->
    queue s' = queue s ->
    results (app s') = results (app s) ->
    pc1 <> Crashed -> held pc1 = held pc0 ->
    Step s s'
| StepClaim s s' w pc0 i r :
    workers s !! w = Some pc0 -> held pc0 = None ->
    queue s = i :: queue s' ->
    results (app s) !! i = Some r ->
    results (app s') = <[i := setStatus validating r]> (results (app s)) ->
    workers s' = <[w := Fetching i]> (workers s) ->
    Step s s'
| StepRelease s s' w pc0 pc1 i r r' :
    workers s !! w = Some pc0 -> held pc0 = Some i ->
    held pc1 = None -> pc1 <> Crashed ->
    queue s' = queue s ->
    results (app s) !! i = Some r ->
    status r' <> validating ->
    results (app s') = <[i := r']> (results (app s)) ->
    workers s' = <[w := pc1]> (workers s) ->
    Step s s'
| StepCrash s s' w pc0 i :
    workers s !! w = Some pc0 ->
    held pc0 = Some i \/ (held pc0 = None /\ queue s = i :: queue s') ->
    results (app s) !! i = None ->
    results (app s') = results (app s) ->
    workers s' = <[w := Crashed]> (workers s) ->
    Step s s'.

(** Every entry in [validating] is held by some worker. *)
Definition covered (s : Sys) : Prop :=
  forall i r, results (app s) !! i = Some r -> status r = validating ->
              exists w pc, workers s !! w = Some pc /\ held pc = Some i.

(** What a run keeps true with respect to the table [t0] it started
    with. *)
Record runInv (t0 : list KeyResult) (s : Sys) : Prop := {
  inv_length : length (results (app s)) = length t0;
  inv_queue : forall i, i ∈ queue s -> i ∈ buildQueue t0;
  inv_held : forall w pc i,
    workers s !! w = Some pc -> held pc = Some i -> i ∈ buildQueue t0;
  inv_frame : forall i r,
    t0 !! i = Some r -> i ∉ buildQueue t0 -> status r <> validating ->
    results (app s) !! i = Some r;
  inv_no_crash : Crashed ∉ workers s
}.

(** The number of entries that are in [validating]. *)
Definition countValidating (table : list KeyResult) : nat :=
  length (filter (fun r => status r = validating) table).

(** Example inputs. *)
Definition straddling_file : string :=
  "sk-AAAABBBB" +:+ String newline "sk-CCCC".


(** A file with a byte order mark (EF BB BF) in the middle of a
    credential, at byte 7. *)
Definition marked_file : string :=
  "x" +:+ String newline
    ("sk-AA" +:+ String "239" (String "187" (String "191"
       ("BB" +:+ String newline "z")))).

(** ** Import, export and the list window *)

(** The white space [String.prototype.trim] removes, among the code units
    below 256: tab, line feed, vertical tab, form feed, carriage return,
    space and no-break space. *)
Definition isSpace (c : ascii) : bool :=
  let n := nat_of_ascii c in
  ((9 <=? n) && (n <=? 13)) || (n =? 32) || (n =? 160).

Fixpoint trimStart (s : string) : string :=
  match s with
  | String c r => if isSpace c then trimStart r else s
  | EmptyString => EmptyString
  end.

Fixpoint trimEnd (s : string) : string :=
  match s with
  | EmptyString => EmptyString
  | String c r =>
      match trimEnd r with
      | EmptyString => if isSpace c then EmptyString else String c EmptyString
      | r' => String c r'
      end
  end.

(** [s.trim()] *)
Definition trim (s : string) : string := trimEnd (trimStart s).

(** [keys.join('\n')] *)
Definition joinLines (l : list string) : string :=
  String.concat (String newline "") l.

(** The updater [processFile] passes to [setInput] (lines 221-224). *)
Definition mergeInput (prev : string) (uniqueNewKeys : list string) : string :=
  let existing := trim prev in
  if negb (String.eqb existing "")
  then existing +:+ String newline (joinLines uniqueNewKeys)
  else joinLines uniqueNewKeys.

(** The end of [processFile] (lines 220-227): the input after the keys of
    a file have been read; without keys there is an alert and the input
    stays. *)
Definition importKeys (prev : string) (uniqueNewKeys : list string) : string :=
  if 0 <? length uniqueNewKeys then mergeInput prev uniqueNewKeys else prev.

(** [k] is a piece of [s]. *)
Definition occursIn (k s : string) : Prop :=
  exists before after, s = before +:+ k +:+ after.

(** The content [downloadValidKeys] hands to [downloadFile]
    (line 406). *)
Definition downloadValidKeys (table : list KeyResult) : string :=
  joinLines (key <$> filter (fun r => status r = valid) table).

(** [VirtualList] (lines 41-50), for a scroll offset, a height and an item
    size that are whole numbers of pixels. *)
Record Viewport := {
  itemCount : Z;
  itemSize : Z;
  height : Z;
  scrollTop : Z
}.

(** [Math.ceil(a / b)] for [b > 0]. *)
Definition ceilDiv (a b : Z) : Z := (- ((- a) / b))%Z.

Definition startIndex (v : Viewport) : Z :=
  Z.max 0 (scrollTop v / itemSize v - 2).

Definition endIndex (v : Viewport) : Z :=
  Z.min (itemCount v - 1) (ceilDiv (scrollTop v + height v) (itemSize v) + 2).

(** The indices of the [for] loop: [startIndex], ..., [endIndex]. *)
Definition renderedRows (v : Viewport) : list Z :=
  seqZ (startIndex v) (endIndex v - startIndex v + 1).

(** The earlier [handleValidate] (the unnamed source file, lines
    123-125): the keys are the lines of the input, trimmed, without the
    empty ones and without repetitions. *)
Fixpoint splitOn (c : ascii) (s : string) : list string :=
  match s with
  | EmptyString => [EmptyString]
  | String d r =>
      if Ascii.eqb d c then EmptyString :: splitOn c r
      else match splitOn c r with
           | h :: t => String d h :: t
           | [] => [String d EmptyString]
           end
  end.

Definition lineKeys (input : string) : list string :=
  Js.arrayFromSet
    (filter (fun k => 0 < Js.size k) (trim <$> splitOn newline input)).


Definition workerEvent (e : Event) : Prop :=
  match e with
  | Wake _ | FetchEnds _ _ | BodyEnds _ _ => True
  | _ => False
  end.

Global Instance workerEvent_dec e : Decision (workerEvent e).
Proof. destruct e; apply _. Defined.

(** The React state shows what [statusRef] holds, [stopped] as [idle]. *)
Definition statusInSync (a : App) : Prop :=
  uiStatus a = if decide (statusRef a = stopped) then idle else statusRef a.

(** Distinct credentials of a file; and what the loop of
    [extractKeysFromText] keeps: the carried tail is the end of what has
    been read, the keys so far are distinct credentials of the file. *)
Definition goodKeys (file : string) (ks : list string) : Prop :=
  NoDup ks /\ Forall (fun k => isToken k /\ occursIn k file) ks.

Definition cursorInv (file : string) (st : cursor) : Prop :=
  (exists pre, String.substring 0 (offset st) file = pre +:+ tail st)
  /\ goodKeys file (keys st).

(** A table with two usable keys. *)
Definition export_table : list KeyResult :=
  [ {| key := "sk-A1"; status := valid; models := ["gpt-4o"];
       errorMsg := None |};
    {| key := "sk-B2"; status := invalid; models := [];
       errorMsg := Some (FromJson (JStr "HTTP 401")) |};
    {| key := "sk-C3"; status := valid; models := []; errorMsg := None |} ].

(** The transitions of a run, one constructor for each way through a
    handler or through a piece of [processNext], with the event that
    causes it and the state it leads to. *)
Inductive Transition (s : Sys) : Event -> Sys -> Prop :=
| TPause :
    Transition s ClickPause (withApp (handlePause (app s)) s)
| TResume :
    uiStatus (app s) = paused ->
    Transition s ClickResume (withApp (updateStatus running (app s)) s)
| TStop :
    Transition s ClickStop (withApp (handleStop (app s)) s)
| TJoin :
    Forall (fun w => w = Done) (workers s) -> joined s = false ->
    Transition s AllEnded (join s)
| TExit w pc0 :
    workers s !! w = Some pc0 -> held pc0 = None ->
    queue s = [] \/ statusRef (app s) = stopped ->
    Transition s (Wake w) (moved w Done s)
| TWait w pc0 :
    workers s !! w = Some pc0 -> held pc0 = None ->
    statusRef (app s) = paused ->
    Transition s (Wake w) (moved w PauseWait s)
| TClaim w pc0 i rest :
    workers s !! w = Some pc0 -> held pc0 = None ->
    queue s = i :: rest ->
    statusRef (app s) <> stopped -> statusRef (app s) <> paused ->
    Transition s (Wake w)
      (writes w i (setStatus validating) (Fetching i)
         {| app := app s; queue := rest; workers := workers s;
            joined := joined s |})
| TResponse w i httpStatus :
    workers s !! w = Some (Fetching i) ->
    statusRef (app s) <> stopped ->
    Transition s (FetchEnds w (Resolved httpStatus))
      (moved w (ReadingBody i httpStatus) s)
| TRevert w i httpStatus :
    workers s !! w = Some (Fetching i) ->
    statusRef (app s) = stopped ->
    Transition s (FetchEnds w (Resolved httpStatus))
      (writes w i (setStatus pending) Done s)
| TFailure w i msg :
    workers s !! w = Some (Fetching i) ->
    Transition s (FetchEnds w (Rejected msg))
      (writes w i (applyOutcome (classifyRejected msg)) Ready s)
| TBody w i httpStatus b :
    workers s !! w = Some (ReadingBody i httpStatus) ->
    Transition s (BodyEnds w b)
      (writes w i (applyOutcome (classifyResponse httpStatus b)) Ready s).

(** Two states of the application that differ at most in the status, the
    models and the message of entries. *)
Definition sameFrame (a a' : App) : Prop :=
  input a' = input a /\ uiStatus a' = uiStatus a
  /\ statusRef a' = statusRef a
  /\ concurrencyLimit a' = concurrencyLimit a
  /\ key <$> results a' = key <$> results a.

(** The queue is what is left of the queue the run started with, the
    entries taken from it are the ones workers hold or have held, and no
    two workers hold the same entry. *)
Definition fifoInv (q0 : list nat) (s : Sys) : Prop :=
  exists taken,
    q0 = taken ++ queue s
    /\ (forall w pc i, workers s !! w = Some pc -> held pc = Some i ->
                       i ∈ taken)
    /\ (forall w1 w2 pc1 pc2 i,
          workers s !! w1 = Some pc1 -> workers s !! w2 = Some pc2 ->
          held pc1 = Some i -> held pc2 = Some i -> w1 = w2).




(** An entry without a verdict on its key. *)
Definition unfinished (st : Status) : Prop := st <> valid /\ st <> invalid.

(** A run of two keys, paused while the first check is in flight. *)
Definition paused_in_flight : Sys :=
  {| app := {| input := input two_key_app; uiStatus := paused;
               statusRef := paused;
               results := [setStatus validating (freshEntry "sk-A");
                           freshEntry "sk-B"];
               concurrencyLimit := 2 |};
     queue := [1]; workers := [Fetching 0; Ready]; joined := false |}.


(** [handleClear] (lines 395-403): refused unless the interface shows
    idle; otherwise the input and the table are emptied. *)
Definition handleClear (a : App) : App :=
  if decide (uiStatus a = idle)
  then {| input := ""; uiStatus := uiStatus a; statusRef := statusRef a;
          results := []; concurrencyLimit := concurrencyLimit a |}
  else a.

(** [r.models.join(', ')] *)
Definition joinModels (ms : list string) : string := String.concat ", " ms.

(** The content [downloadValidKeysDetailed] hands to [downloadFile]
    (lines 411-413): for each usable key the key, a newline and its models,
    the blocks separated by an empty line. *)
Definition detailedEntry (r : KeyResult) : string :=
  key r +:+ String newline (joinModels (models r)).

Definition downloadValidKeysDetailed (table : list KeyResult) : string :=
  String.concat (String newline (String newline ""))
    (detailedEntry <$> filter (fun r => status r = valid) table).

(** ** The page: the runs of several clicks on start

    Every call of [handleValidate] has a queue, workers and [uniqueKeys]
    of its own; the table ([resultsRef]), [statusRef] and the React state
    are the same for all calls.  A worker of an earlier call that is still
    in flight goes on with the queue of its call. *)
Record RunPart := {
  rkeys : list string;       (* [uniqueKeys] of the call *)
  rqueue : list nat;
  rworkers : list Worker;
  rjoined : bool
}.

Record Page := {
  shared : App;
  runs : list RunPart        (* the calls of [handleValidate], oldest first *)
}.

Definition asSys (a : App) (r : RunPart) : Sys :=
  {| app := a; queue := rqueue r; workers := rworkers r; joined := rjoined r |}.

Definition partOf (ks : list string) (s : Sys) : RunPart :=
  {| rkeys := ks; rqueue := queue s; rworkers := workers s;
     rjoined := joined s |}.

(** [setInput(text)]: typing into the text area, or the end of an
    import. *)
Definition withInput (text : string) (a : App) : App :=
  {| input := text; uiStatus := uiStatus a; statusRef := statusRef a;
     results := results a; concurrencyLimit := concurrencyLimit a |}.

(** What can happen on the page: an event of one of the calls (a step of
    one of its workers, the end of its [Promise.all], or a click on pause,
    resume or stop, which only touches what is shared); a click on the
    start button, which is shown while the interface is idle; a click on
    clear; a change of the input. *)
Inductive PageEvent :=
| InRun (k : nat) (e : Event)
| ClickStart
| ClickClear
| SetInput (text : string).

Definition pageFire (e : PageEvent) (p : Page) : option Page :=
  match e with
  | InRun k e =>
      match runs p !! k with
      | Some r =>
          match fire e (asSys (shared p) r) with
          | Some s' =>
              Some {| shared := app s';
                      runs := <[k := partOf (rkeys r) s']> (runs p) |}
          | None => None
          end
      | None => None
      end
  | ClickStart =>
      if decide (uiStatus (shared p) = idle) then
        match handleValidate (shared p) with
        | Run s =>
            Some {| shared := app s;
                    runs := runs p
                            ++ [partOf (uniqueKeysOf (input (shared p))) s] |}
        | NoKeys a | Resumed a => Some {| shared := a; runs := runs p |}
        end
      else None
  | ClickClear =>
      Some {| shared := handleClear (shared p); runs := runs p |}
  | SetInput text =>
      Some {| shared := withInput text (shared p); runs := runs p |}
  end.

Fixpoint pageFireAll (es : list PageEvent) (p : Page) : option Page :=
  match es with
  | [] => Some p
  | e :: rest =>
      match pageFire e p with
      | Some p' => pageFireAll rest p'
      | None => None
      end
  end.

(** Events that leave the input and the length of the table alone. *)
Definition keepsInput (e : PageEvent) : Prop :=
  match e with
  | ClickClear | SetInput _ => False
  | _ => True
  end.

(** Events other than a click on start, pause or resume. *)
Definition waitsForStart (e : PageEvent) : Prop :=
  match e with
  | ClickStart => False
  | InRun _ e => keepsStopped e
  | _ => True
  end.

(** The indices a call still works with are indices of a table of [n]
    entries, and none of its workers has ended by an exception. *)
Definition runInRange (n : nat) (r : RunPart) : Prop :=
  (forall i, i ∈ rqueue r -> i < n)
  /\ (forall w pc i, rworkers r !! w = Some pc -> held pc = Some i -> i < n)
  /\ Crashed ∉ rworkers r.

Definition pageInv (text : string) (p : Page) : Prop :=
  input (shared p) = text
  /\ (runs p <> [] -> key <$> results (shared p) = uniqueKeysOf text)
  /\ Forall (fun r => rkeys r = uniqueKeysOf text
                      /\ runInRange (length (uniqueKeysOf text)) r)
            (runs p).

(** Three keys, one check at a time. *)
Definition three_key_app : App :=
  {| input := "sk-A" +:+ String newline ("sk-B" +:+ String newline "sk-C");
     uiStatus := idle; statusRef := idle; results := [];
     concurrencyLimit := 1 |}.

Definition three_key_page : Page := {| shared := three_key_app; runs := [] |}.

(** The first check is slow.  The operator stops and starts again; the
    second call checks the first two keys and begins the third; then the
    [fetch] of the first call resolves, and its worker goes on with the
    queue of the first call. *)
Definition overlap_trace : list PageEvent :=
  [ClickStart; InRun 0 (Wake 0);
   InRun 0 ClickStop;
   ClickStart; InRun 1 (Wake 0);
   InRun 1 (FetchEnds 0 (Resolved 200));
   InRun 1 (BodyEnds 0 (BodyJson sample_models_body)); InRun 1 (Wake 0);
   InRun 1 (FetchEnds 0 (Resolved 401));
   InRun 1 (BodyEnds 0 (BodyJson sample_error_body)); InRun 1 (Wake 0);
   InRun 0 (FetchEnds 0 (Resolved 200));
   InRun 0 (BodyEnds 0 (BodyJson sample_models_body)); InRun 0 (Wake 0)].

(** More sample inputs. *)
Definition cut_file : string :=
  "sk-AAAABBBB" +:+ String newline "sk-CCCC sk-AAAA".

(** * Properties *)

(** ** Strings as lists of characters *)

Section StringFacts.

Implicit Types (s a b : string) (n m : nat).

Lemma chars_inj a b : chars a = chars b -> a = b.
Proof.
  intros H. rewrite <- (string_of_list_ascii_of_string a).
  rewrite <- (string_of_list_ascii_of_string b). unfold chars in H.
  now rewrite H.
Qed.

Lemma append_cons x a b : String x a +:+ b = String x (a +:+ b).
Proof. reflexivity. Qed.

Lemma append_empty_l a : "" +:+ a = a.
Proof. reflexivity. Qed.

Lemma chars_append a b : chars (a +:+ b) = chars a ++ chars b.
Proof.
  unfold chars. induction a as [|c a IH]; [reflexivity|].
  rewrite append_cons. simpl. now rewrite IH.
Qed.

Lemma chars_length s : length (chars s) = Js.size s.
Proof.
  unfold chars. induction s as [|c s IH]; simpl; [reflexivity|].
  now rewrite IH.
Qed.

Lemma chars_substring s : forall n m,
  chars (String.substring n m s) = take m (drop n (chars s)).
Proof.
  unfold chars.
  induction s as [|c s IH]; intros [|n] [|m]; simpl; try reflexivity.
  - f_equal. apply (IH 0 m).
  - apply (IH n 0).
  - apply (IH n (S m)).
Qed.

Lemma append_assoc a b c : (a +:+ b) +:+ c = a +:+ (b +:+ c).
Proof.
  induction a as [|x a IH]; [reflexivity|].
  rewrite !append_cons. now rewrite IH.
Qed.

Lemma append_empty_r a : a +:+ "" = a.
Proof.
  induction a as [|x a IH]; [reflexivity|].
  rewrite append_cons. now rewrite IH.
Qed.

Lemma size_append a b : Js.size (a +:+ b) = Js.size a + Js.size b.
Proof.
  induction a as [|x a IH]; [reflexivity|].
  rewrite append_cons. simpl. now rewrite IH.
Qed.

Lemma size_substring s n m :
  Js.size (String.substring n m s) = Nat.min m (Js.size s - n).
Proof.
  rewrite <- !chars_length, chars_substring, length_take, length_drop.
  reflexivity.
Qed.

Lemma chars_dropS n s : chars (dropS n s) = drop n (chars s).
Proof.
  unfold dropS. rewrite chars_substring. apply take_ge.
  rewrite length_drop, chars_length. lia.
Qed.

Lemma dropS_0 s : dropS 0 s = s.
Proof. apply chars_inj. now rewrite chars_dropS. Qed.

Lemma substring_dropS s n :
  String.substring 0 n s +:+ dropS n s = s.
Proof.
  apply chars_inj. rewrite chars_append, chars_dropS, chars_substring.
  simpl. apply take_drop.
Qed.

Lemma slice_dropS file o c :
  Js.slice file o (o + c) +:+ dropS (o + c) file = dropS o file.
Proof.
  apply chars_inj. unfold Js.slice.
  rewrite chars_append, !chars_dropS, chars_substring.
  pose proof (chars_length file) as Hlen.
  destruct (Nat.le_gt_cases (Js.size file) o) as [Ho|Ho].
  - rewrite !drop_ge by lia. now rewrite take_nil.
  - rewrite (Nat.min_l o) by lia.
    destruct (Nat.le_gt_cases (o + c) (Js.size file)) as [Hc|Hc].
    + rewrite (Nat.min_l (o + c)) by lia.
      replace (o + c - o) with c by lia.
      rewrite <- (take_drop c (drop o (chars file))) at 2.
      now rewrite drop_drop.
    + rewrite (Nat.min_r (o + c)) by lia.
      rewrite (drop_ge _ (o + c)) by lia.
      rewrite take_ge by (rewrite length_drop; lia).
      now rewrite app_nil_r.
Qed.

Lemma slice_to_end file o c :
  Js.size file <= o + c -> Js.slice file o (o + c) = dropS o file.
Proof.
  intros H. rewrite <- slice_dropS with (c := c).
  assert (dropS (o + c) file = "") as ->.
  { apply chars_inj. rewrite chars_dropS. apply drop_ge.
    rewrite chars_length. lia. }
  now rewrite append_empty_r.
Qed.

(** [substring] with arguments inside the string. *)
Lemma js_substring_prefix s (i : Z) :
  (0 <= i)%Z -> Z.to_nat i <= Js.size s ->
  Js.substring s 0 i = String.substring 0 (Z.to_nat i) s.
Proof.
  intros Hi Hle. unfold Js.substring, Js.clamp. simpl Z.to_nat.
  rewrite Nat.min_0_l, Nat.min_0_l, Nat.max_0_l, Nat.sub_0_r.
  now rewrite Nat.min_l by lia.
Qed.

Lemma js_substringFrom_suffix s (i : Z) :
  (0 <= i)%Z -> Z.to_nat i <= Js.size s ->
  Js.substringFrom s i = dropS (Z.to_nat i) s.
Proof.
  intros Hi Hle. unfold Js.substringFrom, Js.substring, Js.clamp, dropS.
  rewrite Nat2Z.id, Nat.min_id, (Nat.min_l (Z.to_nat i)) by lia.
  rewrite Nat.min_l, Nat.max_r by lia. reflexivity.
Qed.

Lemma lastIndexOf_range c s :
  (-1 <= Js.lastIndexOf c s < Z.of_nat (Js.size s))%Z.
Proof.
  induction s as [|d s IH]; simpl; [lia|].
  destruct (Z.leb_spec 0 (Js.lastIndexOf c s)); [lia|].
  destruct (Ascii.eqb d c); lia.
Qed.

(** The character at the index [lastIndexOf] returns is the needle. *)
Lemma lastIndexOf_dropS c s :
  (0 <= Js.lastIndexOf c s)%Z ->
  exists r, dropS (Z.to_nat (Js.lastIndexOf c s)) s = String c r.
Proof.
  induction s as [|d s IH]; simpl; [lia|].
  destruct (Z.leb_spec 0 (Js.lastIndexOf c s)) as [Hge|Hlt].
  - intros _. destruct (IH Hge) as [r Hr]. exists r.
    replace (Z.to_nat (Js.lastIndexOf c s + 1))
      with (S (Z.to_nat (Js.lastIndexOf c s))) by lia.
    exact Hr.
  - destruct (Ascii.eqb_spec d c) as [->|Hne]; [|lia].
    intros _. exists s. apply dropS_0.
Qed.

End StringFacts.

(** ** The scan and characters outside the class *)

Section Scan.

Variable sep : ascii.
Hypothesis sep_outside : isKeyChar sep = false.

Lemma eqb_key_char (c d : ascii) :
  Ascii.eqb c d = true -> isKeyChar d = true -> isKeyChar c = true.
Proof. intros H%Ascii.eqb_eq. now subst. Qed.

Lemma sep_is_not (d : ascii) :
  isKeyChar d = true -> Ascii.eqb sep d = false.
Proof.
  intros Hd. destruct (Ascii.eqb sep d) eqn:E; [|reflexivity].
  pose proof (eqb_key_char _ _ E Hd). congruence.
Qed.

Lemma takeKeyChars_sep a b :
  takeKeyChars (a +:+ String sep b) = takeKeyChars a.
Proof.
  induction a as [|x a IH].
  - rewrite append_empty_l. simpl. now rewrite sep_outside.
  - rewrite append_cons. simpl. now rewrite IH.
Qed.

(** An attempt of the pattern does not look beyond a separator. *)
Lemma matchAt_sep a b : matchAt (a +:+ String sep b) = matchAt a.
Proof.
  destruct a as [|c1 [|c2 [|c3 r]]];
    rewrite ?append_cons, ?append_empty_l.
  - unfold matchAt. destruct b as [|? [|? ?]]; try reflexivity.
    now rewrite (sep_is_not "s"%char).
  - unfold matchAt. destruct b as [|? ?]; try reflexivity.
    rewrite (sep_is_not "k"%char) by reflexivity.
    now rewrite andb_false_r.
  - unfold matchAt.
    rewrite (sep_is_not "-"%char) by reflexivity.
    now rewrite andb_false_r.
  - unfold matchAt. now rewrite takeKeyChars_sep.
Qed.

Lemma size_takeKeyChars s : Js.size (takeKeyChars s) <= Js.size s.
Proof.
  induction s as [|c s IH]; simpl; [lia|].
  destruct (isKeyChar c); simpl; lia.
Qed.

Lemma matchAt_size s tok :
  matchAt s = Some tok -> 4 <= Js.size tok <= Js.size s.
Proof.
  destruct s as [|c1 [|c2 [|c3 r]]]; simpl; try discriminate.
  destruct (_ && _); [|discriminate].
  pose proof (size_takeKeyChars r) as Hr.
  destruct (takeKeyChars r) as [|c body]; [discriminate|].
  intros [= <-]. simpl in *. lia.
Qed.

(** Scanning across a separator is scanning both sides. *)
Lemma matchFrom_sep a b : forall skip,
  skip <= Js.size a ->
  matchFrom skip (a +:+ String sep b) = matchFrom skip a ++ matchAll b.
Proof.
  induction a as [|x a IH]; intros skip Hskip.
  - simpl in Hskip. assert (skip = 0) as -> by lia.
    rewrite append_empty_l.
    change (matchFrom 0 (String sep b))
      with (match matchAt (String sep b) with
            | Some tok => tok :: matchFrom (String.length tok - 1) b
            | None => matchFrom 0 b
            end).
    now rewrite <- (append_empty_l (String sep b)), matchAt_sep.
  - rewrite append_cons. destruct skip as [|k].
    + change (matchFrom 0 (String x (a +:+ String sep b)))
        with (match matchAt (String x (a +:+ String sep b)) with
              | Some tok =>
                  tok :: matchFrom (String.length tok - 1) (a +:+ String sep b)
              | None => matchFrom 0 (a +:+ String sep b)
              end).
      change (matchFrom 0 (String x a))
        with (match matchAt (String x a) with
              | Some tok => tok :: matchFrom (String.length tok - 1) a
              | None => matchFrom 0 a
              end).
      rewrite <- append_cons, matchAt_sep.
      destruct (matchAt (String x a)) as [tok|] eqn:E.
      * apply matchAt_size in E. simpl in E.
        rewrite IH by lia. reflexivity.
      * rewrite IH by lia. reflexivity.
    + simpl in Hskip. simpl. apply IH. lia.
Qed.

Lemma matchAll_sep a b :
  matchAll (a +:+ String sep b) = matchAll a ++ matchAll b.
Proof. apply matchFrom_sep. lia. Qed.

Lemma matchAll_sep_head b : matchAll (String sep b) = matchAll b.
Proof. apply (matchAll_sep "" b). Qed.

End Scan.

Lemma newline_outside : isKeyChar newline = false.
Proof. reflexivity. Qed.

(** ** Decoding *)

Lemma above_ascii_outside (b : ascii) :
  127 < nat_of_ascii b -> isKeyChar b = false.
Proof.
  intros H. unfold isKeyChar.
  rewrite !orb_false_iff, !andb_false_iff, !Nat.leb_gt, !Nat.eqb_neq. lia.
Qed.

Lemma other_outside : isKeyChar Blob.other = false.
Proof. reflexivity. Qed.

Lemma append_snoc (a : string) (b : ascii) (r : string) :
  a +:+ String b r = (a +:+ String b "") +:+ r.
Proof. now rewrite append_assoc, append_cons, append_empty_l. Qed.

Lemma matchAll_emit (wide : bool) (a r : string) :
  matchAll (a +:+ Blob.emit wide r) = matchAll a ++ matchAll r.
Proof.
  unfold Blob.emit. destruct wide.
  - rewrite (matchAll_sep _ other_outside).
    now rewrite (matchAll_sep_head _ other_outside).
  - apply (matchAll_sep _ other_outside).
Qed.

Lemma lead_lower (n needed lower upper : nat) (wide : bool) :
  Blob.lead n = Some (Blob.Pending needed lower upper wide) -> 128 <= lower.
Proof.
  unfold Blob.lead.
  repeat match goal with
         | |- context [if ?c then _ else _] => destruct c
         end; intros [= <- <- <- <-] || discriminate; lia.
Qed.

(** Decoding changes nothing for the scan: ASCII bytes come out as they
    are and in their order, and every run of other bytes that stands
    between two of them gives at least one code unit outside the class. *)
Lemma matchAll_decode (bytes : string) :
  (forall a, matchAll (a +:+ Blob.decode Blob.Fresh bytes)
             = matchAll (a +:+ bytes))
  /\ (forall needed lower upper wide a,
        128 <= lower ->
        matchAll (a +:+ Blob.decode (Blob.Pending needed lower upper wide)
                          bytes)
        = matchAll a ++ matchAll bytes).
Proof.
  induction bytes as [|b rest [IHf IHp]].
  - split; [reflexivity|]. intros needed lower upper wide a _. simpl.
    now rewrite (matchAll_sep _ other_outside).
  - assert (forall a,
              matchAll
                (a +:+ (if nat_of_ascii b <=? 127
                        then String b (Blob.decode Blob.Fresh rest)
                        else match Blob.lead (nat_of_ascii b) with
                             | Some st' => Blob.decode st' rest
                             | None =>
                                 String Blob.other
                                   (Blob.decode Blob.Fresh rest)
                             end))
              = matchAll (a +:+ String b rest)) as Hfresh.
    { intros a. destruct (Nat.leb_spec (nat_of_ascii b) 127) as [Hle|Hgt].
      - now rewrite append_snoc, IHf, <- append_snoc.
      - rewrite (matchAll_sep b (above_ascii_outside b Hgt)).
        destruct (Blob.lead (nat_of_ascii b)) as [[|needed lower upper wide]|]
          eqn:El.
        + unfold Blob.lead in El.
          repeat match type of El with
                 | context [if ?c then _ else _] => destruct c
                 end; discriminate.
        + apply IHp. eapply lead_lower, El.
        + rewrite (matchAll_sep _ other_outside).
          now rewrite <- (append_empty_l (Blob.decode _ _)), IHf,
            append_empty_l. }
    split; [exact Hfresh|].
    intros needed lower upper wide a Hlow.
    change (Blob.decode (Blob.Pending needed lower upper wide) (String b rest))
      with (if (lower <=? nat_of_ascii b) && (nat_of_ascii b <=? upper)
            then match needed with
                 | 1 => Blob.emit wide (Blob.decode Blob.Fresh rest)
                 | _ => Blob.decode
                          (Blob.Pending (needed - 1) 128 191 wide) rest
                 end
            else String Blob.other
                   (if nat_of_ascii b <=? 127
                    then String b (Blob.decode Blob.Fresh rest)
                    else match Blob.lead (nat_of_ascii b) with
                         | Some st' => Blob.decode st' rest
                         | None =>
                             String Blob.other
                               (Blob.decode Blob.Fresh rest)
                         end)).
    destruct ((lower <=? nat_of_ascii b) && (nat_of_ascii b <=? upper))
      eqn:Ein.
    + apply andb_true_iff in Ein as [Hlo%Nat.leb_le _].
      assert (isKeyChar b = false) as Hb
        by (apply above_ascii_outside; lia).
      rewrite <- (append_empty_l (String b rest)), (matchAll_sep b Hb).
      change (matchAll "" ++ matchAll rest) with (matchAll rest).
      assert (matchAll (a +:+ Blob.emit wide (Blob.decode Blob.Fresh rest))
              = matchAll a ++ matchAll rest) as Hemit.
      { rewrite matchAll_emit.
        now rewrite <- (append_empty_l (Blob.decode _ _)), IHf,
          append_empty_l. }
      destruct needed as [|[|needed]]; [|exact Hemit|]; now apply IHp.
    + rewrite (matchAll_sep _ other_outside). f_equal.
      specialize (Hfresh ""). now rewrite !append_empty_l in Hfresh.
Qed.

Lemma matchAll_stripBOM (bytes : string) :
  matchAll (Blob.stripBOM bytes) = matchAll bytes.
Proof.
  destruct bytes as [|b1 [|b2 [|b3 rest]]]; try reflexivity.
  unfold Blob.stripBOM.
  destruct (Ascii.eqb_spec b1 "239"%char) as [->|]; [|reflexivity].
  destruct (Ascii.eqb_spec b2 "187"%char) as [->|]; [|reflexivity].
  destruct (Ascii.eqb_spec b3 "191"%char) as [->|]; [|reflexivity].
  simpl andb. cbv iota.
  assert (forall b, isKeyChar b = false ->
            forall r, matchAll (String b r) = matchAll r) as Hhead
    by (intros b Hb r; apply (matchAll_sep_head b Hb)).
  now rewrite !Hhead by reflexivity.
Qed.

(** The scan finds in a decoded blob what it finds in its bytes. *)
Lemma matchAll_text (bytes : string) :
  matchAll (Blob.text bytes) = matchAll bytes.
Proof.
  unfold Blob.text.
  rewrite <- (append_empty_l (Blob.decode _ _)).
  rewrite (proj1 (matchAll_decode _)), append_empty_l.
  apply matchAll_stripBOM.
Qed.

Lemma isAscii_cons (b : ascii) (rest : string) :
  isAscii (String b rest) = true
  <-> nat_of_ascii b < 128 /\ isAscii rest = true.
Proof.
  unfold isAscii. simpl. now rewrite andb_true_iff, Nat.ltb_lt.
Qed.

Lemma decode_ascii (bytes : string) :
  isAscii bytes = true -> Blob.decode Blob.Fresh bytes = bytes.
Proof.
  induction bytes as [|b rest IH]; [reflexivity|].
  intros [Hb Hrest]%isAscii_cons. simpl.
  destruct (Nat.leb_spec (nat_of_ascii b) 127); [|lia].
  now rewrite IH.
Qed.

(** [text()] of ASCII bytes is the text of these characters. *)
Lemma text_ascii (bytes : string) :
  isAscii bytes = true -> Blob.text bytes = bytes.
Proof.
  intros H. unfold Blob.text.
  assert (Blob.stripBOM bytes = bytes) as ->; [|now apply decode_ascii].
  destruct bytes as [|b1 [|b2 [|b3 rest]]]; try reflexivity.
  unfold Blob.stripBOM.
  destruct (Ascii.eqb_spec b1 "239"%char) as [->|]; [|reflexivity].
  apply isAscii_cons in H as [H _]. vm_compute in H. lia.
Qed.

Lemma isAscii_Forall (bytes : string) :
  isAscii bytes = true
  <-> Forall (fun b => nat_of_ascii b < 128) (chars bytes).
Proof.
  induction bytes as [|b rest IH]; [split; [constructor|reflexivity]|].
  rewrite isAscii_cons, IH. change (chars (String b rest)) with (b :: chars rest).
  now rewrite Forall_cons.
Qed.

Lemma isAscii_slice (file : string) (a b : nat) :
  isAscii file = true -> isAscii (Js.slice file a b) = true.
Proof.
  rewrite !isAscii_Forall. intros H. unfold Js.slice.
  rewrite chars_substring. now apply Forall_take, Forall_drop.
Qed.

Lemma text_slice (file : string) (a b : nat) :
  isAscii file = true -> Blob.text (Js.slice file a b) = Js.slice file a b.
Proof. intros H. apply text_ascii, isAscii_slice, H. Qed.

(** ** Sets of keys *)

Lemma setAddAll_app keys ks1 ks2 :
  Js.setAddAll keys (ks1 ++ ks2) = Js.setAddAll (Js.setAddAll keys ks1) ks2.
Proof. unfold Js.setAddAll. apply fold_left_app. Qed.

Lemma addMatches_matchAll keys s :
  addMatches keys s = Js.setAddAll keys (matchAll s).
Proof.
  unfold addMatches, jsMatch. now destruct (matchAll s).
Qed.

Lemma uniqueKeysOf_matchAll s :
  uniqueKeysOf s = Js.setAddAll [] (matchAll s).
Proof.
  unfold uniqueKeysOf, jsMatch, Js.arrayFromSet. now destruct (matchAll s).
Qed.

Lemma setAdd_NoDup keys k : NoDup keys -> NoDup (Js.setAdd keys k).
Proof.
  intros H. unfold Js.setAdd. destruct (decide (k ∈ keys)) as [Hin|Hout]; [done|].
  apply NoDup_app. split; [done|]. split.
  - intros x Hx ->%list_elem_of_singleton. contradiction.
  - apply NoDup_singleton.
Qed.

Lemma setAddAll_NoDup ks : forall keys,
  NoDup keys -> NoDup (Js.setAddAll keys ks).
Proof.
  induction ks as [|k ks IH]; intros keys H; simpl; [done|].
  apply IH, setAdd_NoDup, H.
Qed.

Lemma setAddAll_elem ks : forall keys x,
  x ∈ Js.setAddAll keys ks <-> x ∈ keys \/ x ∈ ks.
Proof.
  induction ks as [|k ks IH]; intros keys x; simpl.
  - rewrite elem_of_nil. tauto.
  - rewrite IH, elem_of_cons. unfold Js.setAdd.
    destruct (decide (k ∈ keys)) as [Hin|Hout].
    + split; [tauto|]. intros [H|[->|H]]; tauto.
    + rewrite elem_of_app, list_elem_of_singleton. tauto.
Qed.

(** ** The streaming loop *)

Section Streaming.

Variable C : nat.
Variable file : string.
Hypothesis C_pos : 0 < C.
Hypothesis file_ascii : isAscii file = true.

(** The loop ends: every iteration moves the offset forward. *)
Lemma extractLoop_total : forall fuel st,
  Js.size file <= offset st + fuel ->
  exists st', extractLoop fuel C file st = Some st'.
Proof using C_pos.
  induction fuel as [|fuel IH]; intros st Hfuel; simpl.
  - destruct (Nat.ltb_spec (offset st) (Js.size file)); [exfalso; lia|eauto].
  - destruct (Nat.ltb_spec (offset st) (Js.size file)); [|eauto].
    apply IH. simpl. lia.
Qed.

(** An iteration that holds back cuts its buffer in front of a newline. *)
Lemma holdsBack_cut st buf :
  buf = tail st +:+ Blob.text (Js.slice file (offset st) (offset st + C)) ->
  holdsBack C file st = true ->
  exists cur rest,
    Js.substring buf 0 (Js.lastIndexOf newline buf) = cur
    /\ Js.substringFrom buf (Js.lastIndexOf newline buf) = String newline rest
    /\ buf = cur +:+ String newline rest.
Proof using C_pos.
  intros ->. unfold holdsBack. set (buf := tail st +:+ _).
  intros [Hnl _]%andb_true_iff. apply Z.ltb_lt in Hnl.
  pose proof (lastIndexOf_range newline buf) as Hr.
  destruct (lastIndexOf_dropS newline buf) as [rest Hrest]; [lia|].
  exists (Js.substring buf 0 (Js.lastIndexOf newline buf)), rest.
  split; [reflexivity|].
  rewrite js_substringFrom_suffix, js_substring_prefix by lia.
  split; [exact Hrest|]. rewrite <- Hrest. symmetry. apply substring_dropS.
Qed.


End Streaming.

(** [extractKeysFromText] returns for every positive chunk size. *)
Lemma extractKeysFromText_total (C : nat) (file : string) :
  0 < C -> exists ks, extractKeysFromText C file = Some ks.
Proof.
  intros HC. unfold extractKeysFromText.
  destruct (extractLoop_total C file HC (Js.size file)
              {| offset := 0; tail := ""; keys := [] |}) as [st ->];
    [simpl; lia | eauto].
Qed.

(** *** A condition on the file alone *)

Lemma get_chars (s : string) : forall n, String.get n s = chars s !! n.
Proof.
  induction s as [|c s IH]; intros [|n]; simpl; try reflexivity. apply IH.
Qed.

Lemma get_slice (file : string) (o c j : nat) :
  j < c -> o + j < Js.size file ->
  String.get j (Js.slice file o (o + c)) = String.get (o + j) file.
Proof.
  intros Hj Hlt. unfold Js.slice.
  rewrite !get_chars, chars_substring, (Nat.min_l o) by lia.
  rewrite lookup_take_lt by lia. apply lookup_drop.
Qed.

Lemma lastIndexOf_from_get (c : ascii) (b : string) : forall j,
  String.get j b = Some c -> (Z.of_nat j <= Js.lastIndexOf c b)%Z.
Proof.
  induction b as [|d b IH]; intros [|j]; simpl; try discriminate.
  - intros [= ->]. pose proof (lastIndexOf_range c b).
    destruct (Z.leb_spec 0 (Js.lastIndexOf c b)); [lia|].
    rewrite Ascii.eqb_refl. lia.
  - intros Hj%IH. destruct (Z.leb_spec 0 (Js.lastIndexOf c b)); lia.
Qed.

Lemma lastIndexOf_append (c : ascii) (a b : string) (j : nat) :
  String.get j b = Some c ->
  (Z.of_nat (Js.size a + j) <= Js.lastIndexOf c (a +:+ b))%Z.
Proof.
  intros Hj. induction a as [|x a IH].
  - rewrite append_empty_l. simpl. now apply lastIndexOf_from_get.
  - rewrite append_cons. simpl.
    destruct (Z.leb_spec 0 (Js.lastIndexOf c (a +:+ b))); lia.
Qed.

(** It is enough that every chunk but the last holds a newline, and that
    this newline is not the very first character of the file. *)
Lemma newline_in_every_chunk (C : nat) (file : string) :
  0 < C -> isAscii file = true ->
  (forall k, k * C + C < Js.size file ->
     exists j, j < C /\ 0 < k * C + j
               /\ String.get (k * C + j) file = Some newline) ->
  newlineBeforeEveryBoundary C file = true.
Proof.
  intros HC Hascii Hnl. unfold newlineBeforeEveryBoundary.
  enough (forall fuel st k,
            offset st = k * C -> (k = 0 \/ tail st <> "") ->
            alwaysHoldsBack fuel C file st = true) as H.
  { apply (H _ _ 0); [reflexivity|now left]. }
  induction fuel as [|fuel IH]; intros st k Hoff Htail; simpl; [reflexivity|].
  destruct (Nat.ltb_spec (offset st + C) (Js.size file)) as [Hmore|];
    [|reflexivity].
  destruct (Hnl k) as (j & Hj & Hpos & Hget); [lia|].
  assert (holdsBack C file st = true) as Hhold.
  { unfold holdsBack. rewrite (text_slice file _ _ Hascii).
    apply andb_true_iff. split; [|now apply Nat.ltb_lt].
    apply Z.ltb_lt.
    pose proof (lastIndexOf_append newline (tail st)
                  (Js.slice file (offset st) (offset st + C)) j) as Hle.
    rewrite <- Hoff in Hget, Hpos.
    rewrite get_slice in Hle by lia. specialize (Hle Hget).
    destruct Htail as [->|Hne]; [lia|].
    assert (0 < Js.size (tail st))
      by (destruct (tail st); [done|simpl; lia]).
    lia. }
  rewrite Hhold. simpl. apply (IH _ (S k)).
  - simpl. lia.
  - right. unfold chunkStep. rewrite Hhold. simpl.
    destruct (holdsBack_cut C file HC st _ eq_refl Hhold)
      as (cur & rest & _ & -> & _). discriminate.
Qed.

(** The last iteration holds nothing back and ends the loop. *)
Lemma extractLoop_last (C : nat) (file : string) (fuel : nat) (st : cursor) :
  0 < C -> offset st < Js.size file -> Js.size file <= offset st + C ->
  0 < fuel ->
  extractLoop fuel C file st = Some (chunkStep C file st)
  /\ holdsBack C file st = false.
Proof.
  intros HC Hlt Hlast Hfuel. split.
  - destruct fuel as [|fuel]; [lia|]. cbn [extractLoop].
    destruct (Nat.ltb_spec (offset st) (Js.size file)); [|lia].
    assert (offset (chunkStep C file st) = offset st + C) as Hoff
      by reflexivity.
    destruct fuel; cbn [extractLoop]; rewrite Hoff;
      destruct (Nat.ltb_spec (offset st + C) (Js.size file));
      (reflexivity || (exfalso; lia)).
  - unfold holdsBack.
    destruct (Nat.ltb_spec (offset st + C) (Js.size file)); [lia|].
    apply andb_false_r.
Qed.

(** A file of one chunk is scanned whole. *)
Lemma single_chunk_file (C : nat) (file : string) :
  0 < C -> isAscii file = true -> Js.size file <= C ->
  newlineBeforeEveryBoundary C file = true.
Proof.
  intros HC Hascii Hsmall.
  apply newline_in_every_chunk; [exact HC|exact Hascii|].
  intros k Hk. exfalso. lia.
Qed.

Lemma CHUNK_SIZE_pos : 0 < CHUNK_SIZE.
Proof. unfold CHUNK_SIZE. apply Nat.mul_pos_pos; [apply Nat.mul_pos_pos|]; lia. Qed.

(** X20: with the chunk size of the source, a file of at most 10 MiB is
    read in one iteration, and the result is that of the whole-text
    matcher. *)
Lemma extraction_of_small_file (file : string) :
  Js.size file <= CHUNK_SIZE ->
  extractKeysFromText CHUNK_SIZE file = Some (uniqueKeysOf file).
Proof.
  intros Hsmall. unfold extractKeysFromText.
  destruct file as [|c file]; [reflexivity|].
  destruct (extractLoop_last CHUNK_SIZE (String c file)
              (Js.size (String c file))
              {| offset := 0; tail := ""; keys := [] |})
    as [-> Hno]; [apply CHUNK_SIZE_pos|simpl; lia|exact Hsmall|simpl; lia|].
  unfold chunkStep. rewrite Hno. cbn [keys tail offset].
  rewrite decide_True by reflexivity.
  rewrite append_empty_l, addMatches_matchAll, matchAll_text.
  rewrite (slice_to_end _ 0 CHUNK_SIZE Hsmall), dropS_0.
  now rewrite uniqueKeysOf_matchAll.
Qed.

Lemma extraction_of_small_file_witness :
  extractKeysFromText CHUNK_SIZE straddling_file
  = Some ["sk-AAAABBBB"; "sk-CCCC"].
Proof.
  rewrite (extraction_of_small_file straddling_file); [reflexivity|].
  change (Js.size straddling_file) with 19. unfold CHUNK_SIZE. lia.
Defined.

(** ** Claims on the extractor and on [maskKey] *)


(** Every chunk is decoded on its own, so a byte order mark at the start
    of a chunk is dropped although it stands in the middle of the file:
    with chunks of 7 bytes the two pieces of ["sk-AA"], EF BB BF, ["BB"]
    are joined to one credential, which the scan of the whole text does
    not find, although every chunk but the last has its newline. *)
Lemma chunk_start_mark_is_dropped :
  extractKeysFromText 7 marked_file = Some ["sk-AABB"]
  /\ uniqueKeysOf marked_file = ["sk-AA"]
  /\ newlineBeforeEveryBoundary 7 marked_file = true
  /\ isAscii marked_file = false.
Proof. repeat split; reflexivity. Qed.



Lemma js_substring_mid s (a b : Z) :
  (0 <= a <= b)%Z -> Z.to_nat b <= Js.size s ->
  Js.substring s a b = String.substring (Z.to_nat a) (Z.to_nat b - Z.to_nat a) s.
Proof.
  intros Hab Hb. unfold Js.substring, Js.clamp.
  rewrite (Nat.min_l (Z.to_nat a)), (Nat.min_l (Z.to_nat b)) by lia.
  rewrite Nat.min_l, Nat.max_r by lia. reflexivity.
Qed.

Lemma size_zero_empty s : Js.size s = 0 <-> s = "".
Proof. destruct s; simpl; split; (reflexivity || discriminate). Qed.

(** C9: [maskKey] returns ["***"] for a key of at most 10 characters; for
    a longer key it returns the first 7 characters, ["..."] and the last 4
    characters.  The key is the first segment, a hidden segment of
    [length - 11] characters and the last segment: at length 11 the two
    shown segments are the whole key, and something is hidden exactly when
    the length is at least 12. *)
Theorem maskKey_shape (key : string) :
  (Js.size key <= 10 /\ maskKey key = "***")
  \/ (10 < Js.size key
      /\ maskKey key = shownHead key +:+ "..." +:+ shownTail key
      /\ Js.size (shownHead key) = 7
      /\ Js.size (shownTail key) = 4
      /\ key = shownHead key +:+ hiddenPart key +:+ shownTail key
      /\ Js.size (hiddenPart key) = Js.size key - 11
      /\ (Js.size key = 11 <-> shownHead key +:+ shownTail key = key)
      /\ (hiddenPart key <> "" <-> 12 <= Js.size key)).
Proof.
  unfold maskKey.
  destruct (Nat.leb_spec (Js.size key) 10) as [Hle|Hgt]; [left; done|right].
  assert (shownHead key = String.substring 0 7 key) as Hh.
  { unfold shownHead. rewrite js_substring_mid by lia. reflexivity. }
  assert (shownTail key = String.substring (Js.size key - 4) 4 key) as Ht.
  { unfold shownTail, Js.substringFrom. rewrite js_substring_mid by lia.
    f_equal; lia. }
  assert (hiddenPart key = String.substring 7 (Js.size key - 11) key) as Hm.
  { unfold hiddenPart. rewrite js_substring_mid by lia. f_equal; lia. }
  assert (Js.size (shownHead key) = 7) as Sh
    by (rewrite Hh, size_substring; lia).
  assert (Js.size (shownTail key) = 4) as St
    by (rewrite Ht, size_substring; lia).
  assert (Js.size (hiddenPart key) = Js.size key - 11) as Sm
    by (rewrite Hm, size_substring; lia).
  assert (key = shownHead key +:+ hiddenPart key +:+ shownTail key) as Hkey.
  { apply chars_inj. rewrite Hh, Hm, Ht, !chars_append, !chars_substring.
    pose proof (chars_length key) as Hlen. simpl drop at 1.
    rewrite <- (take_drop 7 (chars key)) at 1. f_equal.
    rewrite <- (take_drop (Js.size key - 11) (drop 7 (chars key))) at 1.
    f_equal. rewrite drop_drop.
    replace (7 + (Js.size key - 11)) with (Js.size key - 4) by lia.
    symmetry. apply take_ge. rewrite length_drop. lia. }
  repeat split; try assumption; try reflexivity.
  - intros H11. rewrite Hkey at 3.
    assert (hiddenPart key = "") as -> by (apply size_zero_empty; lia).
    reflexivity.
  - intros Heq. apply (f_equal String.length) in Heq.
    rewrite size_append in Heq. lia.
  - intros Hne. destruct (Nat.le_gt_cases 12 (Js.size key)); [done|].
    exfalso. apply Hne, size_zero_empty. lia.
  - intros H12 He. apply size_zero_empty in He. lia.
Qed.

Example maskKey_11 : maskKey "sk-12345678" = "sk-1234...5678".
Proof. reflexivity. Qed.

Example maskKey_12 : maskKey "sk-123456789" = "sk-1234...6789".
Proof. reflexivity. Qed.

(** ** Seeding *)

Lemma everyEqualAt_spec (a b : list string) :
  everyEqualAt a b = true <-> forall i k, a !! i = Some k -> b !! i = Some k.
Proof.
  unfold everyEqualAt. rewrite forallb_forall. split.
  - intros H i k Hik.
    specialize (H (i, k)). simpl in H. apply bool_decide_eq_true in H; [done|].
    apply list_elem_of_In. apply (elem_of_lookup_imap_2 pair a k i Hik).
  - intros H [i k] Hin%list_elem_of_In.
    apply elem_of_lookup_imap_1 in Hin as (j & y & [= -> ->] & Hj).
    apply bool_decide_eq_true. eauto.
Qed.

Lemma keysMatch_spec (uniqueKeys existingKeys : list string) :
  keysMatch uniqueKeys existingKeys = true <-> uniqueKeys = existingKeys.
Proof.
  unfold keysMatch. rewrite andb_true_iff, Nat.eqb_eq, everyEqualAt_spec.
  split.
  - intros [Hlen Hall]. apply list_eq. intros i.
    destruct (uniqueKeys !! i) as [k|] eqn:E.
    + symmetry. eauto.
    + symmetry. apply lookup_ge_None. apply lookup_ge_None in E. lia.
  - intros ->. eauto.
Qed.

(** C5: seeding compares the incoming keys with the keys of the table,
    position by position.  When the two sequences are equal the table is
    returned as it is, with every outcome it holds; when they differ, in
    an element or in length, the table is rebuilt: one entry per incoming
    key, in the incoming order, each [pending], with no models and no
    error message. *)
Theorem seed_preserves_or_rebuilds (uniqueKeys : list string)
    (table : list KeyResult) :
  (uniqueKeys = key <$> table /\ seed uniqueKeys table = table)
  \/ (uniqueKeys <> key <$> table
      /\ seed uniqueKeys table = freshEntry <$> uniqueKeys
      /\ length (seed uniqueKeys table) = length uniqueKeys
      /\ key <$> seed uniqueKeys table = uniqueKeys
      /\ Forall (fun r => status r = pending /\ models r = []
                          /\ errorMsg r = None)
                (seed uniqueKeys table)).
Proof.
  unfold seed.
  destruct (keysMatch uniqueKeys (key <$> table)) eqn:E; simpl.
  - left. apply keysMatch_spec in E. done.
  - right. split.
    { intros H. apply keysMatch_spec in H. congruence. }
    split; [reflexivity|]. split; [apply length_fmap|]. split.
    + rewrite <- list_fmap_compose. apply list_fmap_id.
    + apply Forall_fmap, Forall_forall. intros k _. done.
Qed.

(** The table a run starts with is the seeded one. *)
Lemma handleValidate_seeds (a : App) (s : Sys) :
  handleValidate a = Run s ->
  results (app s) = seed (uniqueKeysOf (input a)) (results a)
  /\ queue s = buildQueue (results (app s))
  /\ statusRef (app s) = running
  /\ uiStatus (app s) = running
  /\ joined s = false.
Proof.
  unfold handleValidate. destruct (decide _); [discriminate|].
  destruct (_ =? 0); [discriminate|]. intros [= <-]. done.
Qed.

(** ** The queue *)

Lemma buildQueue_from (table : list KeyResult) : forall k,
  let q := fst <$> filter (fun item : nat * Status => queued item.2)
                     (imap (fun idx r => (k + idx, status r)) table) in
  Forall (fun i => k <= i) q /\ StronglySorted lt q.
Proof.
  induction table as [|r table IH]; intros k; simpl.
  - split; constructor.
  - destruct (IH (S k)) as [Hge Hsorted].
    assert (imap ((fun idx r0 => (k + idx, status r0)) ∘ S) table
            = imap (fun idx r0 => (S k + idx, status r0)) table) as ->.
    { apply imap_ext. intros i x _. simpl. f_equal. lia. }
    assert (Forall (fun i => k <= i)
              (fst <$> filter (fun item : nat * Status => queued item.2)
                 (imap (fun idx r0 => (S k + idx, status r0)) table)))
      as Hge'.
    { eapply Forall_impl; [exact Hge|]. simpl. intros; lia. }
    rewrite filter_cons. destruct (decide _); simpl.
    + split.
      * constructor; [lia|exact Hge'].
      * constructor; [exact Hsorted|].
        eapply Forall_impl; [exact Hge|]. simpl. intros; lia.
    + split; [exact Hge'|exact Hsorted].
Qed.

Lemma buildQueue_sorted (table : list KeyResult) :
  StronglySorted lt (buildQueue table).
Proof. apply (buildQueue_from table 0). Qed.

Lemma buildQueue_elem (table : list KeyResult) (i : nat) :
  i ∈ buildQueue table
  <-> exists r, table !! i = Some r /\ queued (status r).
Proof.
  unfold buildQueue. rewrite list_elem_of_fmap. split.
  - intros ([j st] & -> & [Hq Hin]%list_elem_of_filter).
    apply elem_of_lookup_imap_1 in Hin as (i & r & [= -> ->] & Hi).
    exists r. done.
  - intros (r & Hi & Hq). exists (i, status r). split; [done|].
    apply list_elem_of_filter. split; [exact Hq|].
    apply (elem_of_lookup_imap_2 (fun idx r => (idx, status r)) table r i Hi).
Qed.

(** ** A text without tokens *)

Lemma takeKeyChars_prefix (s : string) :
  exists rest, s = takeKeyChars s +:+ rest
               /\ Forall (fun c => isKeyChar c = true) (chars (takeKeyChars s)).
Proof.
  induction s as [|c s (rest & Hs & Hall)]; simpl.
  - exists "". split; [reflexivity|constructor].
  - destruct (isKeyChar c) eqn:E.
    + exists rest. split; [rewrite append_cons; congruence|].
      simpl. constructor; assumption.
    + exists (String c s). split; [reflexivity|constructor].
Qed.

Lemma matchAt_token (s tok : string) :
  matchAt s = Some tok -> isToken tok /\ exists after, s = tok +:+ after.
Proof.
  destruct s as [|c1 [|c2 [|c3 r]]]; simpl; try discriminate.
  destruct (Ascii.eqb_spec c1 "s"); [subst|discriminate].
  destruct (Ascii.eqb_spec c2 "k"); [subst|discriminate].
  destruct (Ascii.eqb_spec c3 "-"); [subst|discriminate]. simpl.
  destruct (takeKeyChars_prefix r) as (rest & Hr & Hall).
  destruct (takeKeyChars r) as [|c body] eqn:E; [discriminate|].
  intros [= <-]. split.
  - exists (String c body). done.
  - exists rest. rewrite Hr at 1. reflexivity.
Qed.

Lemma matchFrom_contains (s : string) : forall skip,
  matchFrom skip s <> [] -> containsToken s.
Proof.
  induction s as [|c s IH]; intros skip; [done|].
  assert (forall k, matchFrom k s <> [] -> containsToken (String c s)) as Hrest.
  { intros k (before & tok & after & -> & Htok)%IH.
    exists (String c before), tok, after. done. }
  destruct skip as [|k]; cbn [matchFrom]; [|apply Hrest].
  destruct (matchAt (String c s)) as [tok|] eqn:E; [|apply Hrest].
  intros _. apply matchAt_token in E as [Htok [after Hs]].
  exists "", tok, after. done.
Qed.

(** C10: when the input contains no substring of the credential shape,
    [handleValidate], called to start a run (the interface is not paused),
    returns at once: no run is started and the state it leaves, table,
    statuses and run state, is the state it found. *)
Theorem handleValidate_without_keys_is_noop (a : App) :
  uiStatus a <> paused ->
  ~ containsToken (input a) ->
  handleValidate a = NoKeys a.
Proof.
  intros Hui Hno. unfold handleValidate.
  destruct (decide (uiStatus a = paused)); [done|].
  assert (matchAll (input a) = []) as Hnil.
  { destruct (matchAll (input a)) eqn:E; [done|].
    exfalso. apply Hno, (matchFrom_contains _ 0). unfold matchAll in E.
    rewrite E. done. }
  rewrite uniqueKeysOf_matchAll, Hnil. reflexivity.
Qed.

(** ** Classification *)

Lemma prefix_append (p s : string) :
  String.prefix p s = true <-> exists rest, s = p +:+ rest.
Proof.
  revert s. induction p as [|c p IH]; intros s.
  - split; [intros _; exists s; reflexivity|]. destruct s; reflexivity.
  - destruct s as [|d s]; simpl.
    + split; [discriminate|]. intros [rest H]. discriminate.
    + destruct (ascii_dec c d) as [->|Hne].
      * rewrite IH. split; intros [rest H]; exists rest.
        -- rewrite append_cons. congruence.
        -- rewrite append_cons in H. congruence.
      * split; [discriminate|]. intros [rest H].
        rewrite append_cons in H. congruence.
Qed.

Lemma hasModelPrefix_spec (m : string) :
  hasModelPrefix m = true
  <-> exists p rest, p ∈ modelPrefixes /\ m = p +:+ rest.
Proof.
  unfold hasModelPrefix, Js.startsWith, modelPrefixes.
  rewrite !orb_true_iff, !prefix_append. split.
  - intros [[[[[[[r H]|[r H]]|[r H]]|[r H]]|[r H]]|[r H]]|[r H]];
      eexists _, r; (split; [|exact H]); set_solver.
  - intros (p & r & Hp & ->).
    repeat (apply elem_of_cons in Hp as [->|Hp]; [eauto 10|]).
    now apply elem_of_nil in Hp.
Qed.

Lemma jsSort_sorted (l : list string) : Sorted String.le (jsSort l).
Proof. apply (Sorted_merge_sort String.le). Qed.

Lemma jsSort_permutation (l : list string) : jsSort l ≡ₚ l.
Proof. apply (merge_sort_Permutation String.le). Qed.

(** The sorted arrangement of a list of strings is unique, so the result
    of [sort] does not depend on the algorithm of the engine. *)
Lemma jsSort_unique (l l' : list string) :
  Sorted String.le l' -> l' ≡ₚ l -> l' = jsSort l.
Proof.
  intros Hs Hp. apply (Sorted_unique String.le); [exact Hs|apply jsSort_sorted|].
  rewrite Hp. symmetry. apply jsSort_permutation.
Qed.

Lemma mapId_strings (items : list json) (ids : list string) :
  Forall2 (fun item id => prop "id" item = Value (JStr id)) items ids ->
  mapId items = Some ((fun id => Value (JStr id)) <$> ids).
Proof.
  induction 1 as [|item id items ids Hid _ IH]; [reflexivity|].
  rewrite fmap_cons. cbn [mapId]. rewrite Hid, IH. reflexivity.
Qed.

Lemma filterModels_strings (ids : list string) :
  filterModels ((fun id => Value (JStr id)) <$> ids)
  = Some (filter (fun m => hasModelPrefix m = true) ids).
Proof.
  induction ids as [|id ids IH]; [reflexivity|].
  rewrite fmap_cons. cbn [filterModels]. rewrite IH, filter_cons.
  destruct (hasModelPrefix id); destruct (decide _); congruence.
Qed.

Lemma errorMessageOf_field (httpStatus : nat) (body : bodyResult) :
  errorMessageOf httpStatus body =
  match errorMessageField body with
  | Some m => if truthy m then m else JStr (httpStatusText httpStatus)
  | None => JStr (httpStatusText httpStatus)
  end.
Proof.
  unfold errorMessageOf, errorMessageField.
  destruct body as [errData|msg]; [|reflexivity].
  destruct (prop "error" errData) as [| |e]; try reflexivity.
  destruct (truthy e) eqn:Et.
  - destruct (prop "message" e); reflexivity.
  - destruct e as [|b|n|s|items|fields]; simpl in *; try reflexivity;
      discriminate.
Qed.

Lemma truthy_falsy (v : json) : truthy v = false <-> falsy v.
Proof.
  split.
  - destruct v as [|[]|n|m| |]; simpl; try discriminate;
      try (intros _; constructor).
    + intros H%negb_false_iff%Z.eqb_eq. subst. constructor.
    + intros H%negb_false_iff%String.eqb_eq. subst. constructor.
  - now destruct 1.
Qed.

Lemma ok_range (httpStatus : nat) :
  ok httpStatus = true <-> 200 <= httpStatus <= 299.
Proof. unfold ok. rewrite andb_true_iff, !Nat.leb_le. tauto. Qed.

Lemma httpStatusText_decimal (httpStatus : nat) :
  exists digits, httpStatusText httpStatus = "HTTP " +:+ digits
                 /\ decimalOf digits httpStatus.
Proof.
  exists (NilEmpty.string_of_uint (Nat.to_uint httpStatus)).
  split; [reflexivity|]. exists (Nat.to_uint httpStatus).
  split; [apply NilEmpty.usu|]. split; [|apply Unsigned.of_to].
  rewrite <- Unsigned.to_of, Unsigned.of_to. reflexivity.
Qed.

(** The decimal notation of a number is one string. *)
Lemma decimalOf_unique (digits : string) (n : nat) :
  decimalOf digits n -> digits = NilEmpty.string_of_uint (Nat.to_uint n).
Proof.
  intros (d & Hd & Hnorm & Hn). apply NilEmpty.sus in Hd.
  rewrite <- Hd, <- Hn, Unsigned.to_of, Hnorm. reflexivity.
Qed.

(** C8, as stated, fails: a 404 whose body has an [error.message] that is
    the empty string gets the text ["HTTP 404"], not the message of the
    body; and a 200 whose body has no list under [data] gets [Error], not
    [Valid]. *)
Lemma classification_departs_from_claim :
  errorMessageField (BodyJson sample_empty_message_body) = Some (JStr "")
  /\ classifyResponse 404 (BodyJson sample_empty_message_body)
     = Invalid (JStr "HTTP 404")
  /\ classifyResponse 200 (BodyJson (JObj [("data", JNull)]))
     = Error (OfTypeError CallMapOnNonArray)
  /\ classifyResponse 200 (BodyRejected "Unexpected end of JSON input")
     = Error (FromJson (JStr "Unexpected end of JSON input")).
Proof. repeat split; reflexivity. Qed.

(** C8 (amended): a response with a status in 200-299 whose body is a
    JSON object with a [data] array of objects with string [id]s gives
    [Valid], with as models the ids that start with one of the seven
    prefixes, sorted ascending (the one sorted arrangement of them).  A
    response with another status gives [Invalid]; its message is the
    [error.message] field of the JSON body when the body has that field
    and its value is not [null], [false], [0] or the empty string, and
    otherwise the text [HTTP], a space and the status code in decimal.  A
    [fetch] that fails gives [Error] with the message of the failure.  The
    entry receives the status and the models or the message. *)
Theorem response_classification :
  (forall httpStatus data items ids,
     200 <= httpStatus <= 299 ->
     prop "data" data = Value (JArr items) ->
     Forall2 (fun item id => prop "id" item = Value (JStr id)) items ids ->
     exists ms,
       classifyResponse httpStatus (BodyJson data) = Valid ms
       /\ Sorted String.le ms
       /\ ms ≡ₚ filter (fun m => hasModelPrefix m = true) ids
       /\ (forall m, m ∈ ms <->
             m ∈ ids /\ exists p rest, p ∈ modelPrefixes /\ m = p +:+ rest)
       /\ forall r, status (applyOutcome (Valid ms) r) = valid
                    /\ models (applyOutcome (Valid ms) r) = ms)
  /\ (forall httpStatus body,
        httpStatus < 200 \/ 299 < httpStatus ->
        exists m,
          classifyResponse httpStatus body = Invalid m
          /\ (forall v, errorMessageField body = Some v -> ~ falsy v ->
                        m = v)
          /\ (errorMessageField body = None
              \/ (exists v, errorMessageField body = Some v /\ falsy v) ->
              exists digits, m = JStr ("HTTP " +:+ digits)
                             /\ decimalOf digits httpStatus)
          /\ forall r, status (applyOutcome (Invalid m) r) = invalid
                       /\ errorMsg (applyOutcome (Invalid m) r)
                          = Some (FromJson m))
  /\ (forall msg,
        classifyRejected msg = Error (FromJson (JStr msg))
        /\ forall r, status (applyOutcome (classifyRejected msg) r) = error
                     /\ errorMsg (applyOutcome (classifyRejected msg) r)
                        = Some (FromJson (JStr msg))).
Proof.
  split; [|split].
  - intros httpStatus data items ids Hok%ok_range Hdata Hids.
    exists (jsSort (filter (fun m => hasModelPrefix m = true) ids)).
    split.
    { unfold classifyResponse, modelsOf.
      rewrite Hok, Hdata, (mapId_strings items ids Hids), filterModels_strings.
      reflexivity. }
    split; [apply jsSort_sorted|].
    split; [apply jsSort_permutation|]. split; [|done].
    intros m. rewrite jsSort_permutation, list_elem_of_filter, hasModelPrefix_spec.
    tauto.
  - intros httpStatus body Hout.
    assert (ok httpStatus = false) as Hok.
    { destruct (ok httpStatus) eqn:E; [|reflexivity].
      apply ok_range in E. lia. }
    exists (errorMessageOf httpStatus body). split.
    { unfold classifyResponse. now rewrite Hok. }
    rewrite errorMessageOf_field.
    destruct (httpStatusText_decimal httpStatus) as (digits & Htext & Hdigits).
    split; [|split; [|done]].
    + intros v -> Hv. destruct (truthy v) eqn:E; [reflexivity|].
      now apply truthy_falsy in E.
    + intros [->|(v & -> & Hv%truthy_falsy)]; rewrite ?Hv, Htext; eauto.
  - intros msg. done.
Qed.

Lemma response_classification_witness :
  (exists ms,
     classifyResponse 200 (BodyJson sample_models_body) = Valid ms
     /\ ms ≡ₚ ["whisper-1"; "gpt-4o"; "o1-mini"]
     /\ Sorted String.le ms)
  /\ (exists m,
        classifyResponse 401 (BodyJson sample_error_body) = Invalid m
        /\ m = JStr "Incorrect API key provided")
  /\ (exists m,
        classifyResponse 503 (BodyRejected "Unexpected token <") = Invalid m
        /\ m = JStr "HTTP 503")
  /\ (exists m,
        classifyResponse 404 (BodyJson sample_empty_message_body) = Invalid m
        /\ m = JStr "HTTP 404").
Proof.
  destruct response_classification as (Hvalid & Hinvalid & _).
  split; [|split; [|split]].
  - destruct (Hvalid 200 sample_models_body
                [JObj [("id", JStr "whisper-1"); ("object", JStr "model")];
                 JObj [("id", JStr "babbage-002")];
                 JObj [("id", JStr "gpt-4o")];
                 JObj [("id", JStr "o1-mini")]]
                ["whisper-1"; "babbage-002"; "gpt-4o"; "o1-mini"])
      as (ms & Hc & Hsorted & Hms & _).
    + lia.
    + reflexivity.
    + repeat constructor.
    + exists ms. split; [exact Hc|]. split; [exact Hms|exact Hsorted].
  - destruct (Hinvalid 401 (BodyJson sample_error_body))
      as (m & Hc & Hm & _); [lia|].
    exists m. split; [exact Hc|].
    apply Hm; [reflexivity|]. inversion 1.
  - destruct (Hinvalid 503 (BodyRejected "Unexpected token <"))
      as (m & Hc & _ & Hm & _); [lia|].
    exists m. split; [exact Hc|].
    destruct Hm as (digits & -> & Hd%decimalOf_unique); [now left|].
    now rewrite Hd.
  - destruct (Hinvalid 404 (BodyJson sample_empty_message_body))
      as (m & Hc & _ & Hm & _); [lia|].
    exists m. split; [exact Hc|].
    destruct Hm as (digits & -> & Hd%decimalOf_unique).
    + right. exists (JStr ""). split; [reflexivity|constructor].
    + now rewrite Hd.
Defined.

(** ** The transitions of a run *)

Lemma writes_Step (w i : nat) (f : KeyResult -> KeyResult) (pc0 pc : Worker)
    (s : Sys) :
  workers s !! w = Some pc0 -> held pc0 = Some i ->
  held pc = None -> pc <> Crashed ->
  (forall r, status (f r) <> validating) ->
  Step s (writes w i f pc s).
Proof.
  intros Hw Hheld Hpc Hnc Hf. unfold writes, writeAt.
  destruct (results (app s) !! i) as [r|] eqn:E.
  - eapply (StepRelease s _ w pc0 pc i r (f r)); eauto.
  - eapply (StepCrash s _ w pc0 i); eauto.
Qed.

Lemma dequeue_Step (w : nat) (pc0 : Worker) (s : Sys) :
  workers s !! w = Some pc0 -> held pc0 = None ->
  Step s (dequeue w s).
Proof.
  intros Hw Hheld. unfold dequeue. destruct (queue s) as [|i rest] eqn:Eq.
  - eapply (StepMove s _ w pc0 Done); eauto; try done;
      try (rewrite Hheld; done).
  - unfold writes, writeAt. simpl.
    destruct (results (app s) !! i) as [r|] eqn:E.
    + eapply (StepClaim s _ w pc0 i r); eauto.
    + eapply (StepCrash s _ w pc0 i); eauto.
Qed.

Lemma applyOutcome_status (o : Outcome) (r : KeyResult) :
  status (applyOutcome o r) <> validating.
Proof. destruct o; simpl; discriminate. Qed.

Lemma fire_Step (e : Event) (s s' : Sys) : fire e s = Some s' -> Step s s'.
Proof.
  destruct e as [w|w r|w b| | | |]; simpl.
  - destruct (workers s !! w) as [[]|] eqn:Hw; try discriminate; intros [= <-].
    + unfold loopHead. destruct (queue s) eqn:Eq.
      { eapply (StepMove s _ w Ready Done); eauto; done. }
      destruct (statusRef (app s));
        try (eapply dequeue_Step; eauto; fail).
      * eapply (StepMove s _ w Ready PauseWait); eauto; done.
      * eapply (StepMove s _ w Ready Done); eauto; done.
    + unfold pauseWake.
      destruct (statusRef (app s));
        try (eapply dequeue_Step; eauto; fail).
      * eapply (StepMove s _ w PauseWait PauseWait); eauto; done.
      * eapply (StepMove s _ w PauseWait Done); eauto; done.
  - destruct (workers s !! w) as [[]|] eqn:Hw; try discriminate; intros [= <-].
    unfold fetchDone. destruct r as [httpStatus|msg].
    + destruct (decide _).
      * eapply writes_Step; eauto; done.
      * eapply (StepMove s _ w (Fetching i) (ReadingBody i httpStatus));
          eauto; done.
    + eapply writes_Step; eauto using applyOutcome_status; done.
  - destruct (workers s !! w) as [[]|] eqn:Hw; try discriminate; intros [= <-].
    unfold bodyDone. eapply writes_Step; eauto using applyOutcome_status; done.
  - intros [= <-]. apply StepControl; eauto.
  - destruct (decide _); [|discriminate]. intros [= <-].
    apply StepControl; eauto.
  - intros [= <-]. apply StepControl; eauto.
  - destruct (_ && _); [|discriminate]. intros [= <-].
    apply StepControl; eauto. left. simpl. destruct (decide _); done.
Qed.

Lemma reachable_ind_Step (P : Sys -> Prop) (s0 : Sys) :
  P s0 -> (forall s s', P s -> Step s s' -> P s') ->
  forall s, reachable s0 s -> P s.
Proof.
  intros H0 Hstep s [es Hes]. revert s0 H0 Hes.
  induction es as [|e es IH]; intros s0 H0; simpl.
  - intros [= <-]. exact H0.
  - destruct (fire e s0) as [s1|] eqn:E; [|discriminate].
    apply IH. eapply Hstep; [exact H0|]. eapply fire_Step, E.
Qed.

(** *** What every transition keeps *)

Lemma Step_workers_length (s s' : Sys) :
  Step s s' -> length (workers s') = length (workers s).
Proof.
  destruct 1; repeat match goal with
    | H : workers _ = _ |- _ => rewrite H
    end; rewrite ?length_insert; reflexivity.
Qed.

Lemma revertValidating_status (r : KeyResult) :
  status (revertValidating r) <> validating.
Proof.
  unfold revertValidating. destruct (decide (status r = validating)); done.
Qed.

Lemma revertValidating_id (r : KeyResult) :
  status r <> validating -> revertValidating r = r.
Proof.
  intros H. unfold revertValidating.
  destruct (decide (status r = validating)); done.
Qed.

Lemma Step_covered (s s' : Sys) : Step s s' -> covered s -> covered s'.
Proof.
  intros HS Hc j rj Hj Hv.
  destruct HS as
    [s s' Hws Hq Hres
    |s s' w pc0 pc1 Hw Hws Hq Hres Hnc Hheld
    |s s' w pc0 i r Hw Hheld Hq Hi Hres Hws
    |s s' w pc0 pc1 i r r' Hw Hheld Hpc1 Hnc Hq Hi Hr' Hres Hws
    |s s' w pc0 i Hw Hheld Hi Hres Hws].
  - rewrite Hws. destruct Hres as [Hres|Hres]; rewrite Hres in Hj.
    + eauto.
    + apply list_lookup_fmap_Some in Hj as (r0 & -> & _).
      now apply revertValidating_status in Hv.
  - rewrite Hres in Hj. destruct (Hc j rj Hj Hv) as (w' & pc' & Hw' & Hh').
    rewrite Hws. destruct (decide (w' = w)) as [->|Hne].
    + exists w, pc1. split; [|congruence].
      apply list_lookup_insert_eq. eapply lookup_lt_Some, Hw.
    + exists w', pc'. rewrite list_lookup_insert_ne by done. done.
  - rewrite Hws. destruct (decide (j = i)) as [->|Hji].
    + exists w, (Fetching i). split; [|done].
      apply list_lookup_insert_eq. eapply lookup_lt_Some, Hw.
    + rewrite Hres, list_lookup_insert_ne in Hj by done.
      destruct (Hc j rj Hj Hv) as (w' & pc' & Hw' & Hh').
      exists w', pc'. split; [|done].
      rewrite list_lookup_insert_ne; [done|]. intros ->. congruence.
  - rewrite Hws. rewrite Hres in Hj. destruct (decide (j = i)) as [->|Hji].
    + rewrite list_lookup_insert_eq in Hj by (eapply lookup_lt_Some, Hi).
      congruence.
    + rewrite list_lookup_insert_ne in Hj by done.
      destruct (Hc j rj Hj Hv) as (w' & pc' & Hw' & Hh').
      exists w', pc'. split; [|done].
      rewrite list_lookup_insert_ne; [done|]. intros ->. congruence.
  - rewrite Hws. rewrite Hres in Hj.
    destruct (Hc j rj Hj Hv) as (w' & pc' & Hw' & Hh').
    exists w', pc'. split; [|done].
    rewrite list_lookup_insert_ne; [done|]. intros ->.
    destruct Hheld as [Hheld|[Hheld _]]; congruence.
Qed.

Lemma elem_of_insert_worker (ws : list Worker) (w : nat) (pc x : Worker) :
  x ∈ <[w := pc]> ws -> x = pc \/ x ∈ ws.
Proof.
  intros (k & Hk)%list_elem_of_lookup.
  destruct (decide (k = w)) as [->|Hne].
  - destruct (decide (w < length ws)).
    + rewrite list_lookup_insert_eq in Hk by done. left. congruence.
    + rewrite list_insert_ge in Hk by lia. right.
      eapply list_elem_of_lookup_2, Hk.
  - rewrite list_lookup_insert_ne in Hk by done. right.
    eapply list_elem_of_lookup_2, Hk.
Qed.

Lemma lookup_insert_worker (ws : list Worker) (w k : nat) (pc x : Worker) :
  <[w := pc]> ws !! k = Some x ->
  (k = w /\ x = pc) \/ (k <> w /\ ws !! k = Some x).
Proof.
  intros Hk. destruct (decide (k = w)) as [->|Hne].
  - left. split; [done|].
    destruct (decide (w < length ws)).
    + rewrite list_lookup_insert_eq in Hk by done. congruence.
    + rewrite list_insert_ge in Hk by lia.
      apply lookup_lt_Some in Hk. lia.
  - right. rewrite list_lookup_insert_ne in Hk by done. done.
Qed.

Lemma buildQueue_in_range (t0 : list KeyResult) (i : nat) :
  i ∈ buildQueue t0 -> i < length t0.
Proof.
  intros (r & Hi & _)%buildQueue_elem. eapply lookup_lt_Some, Hi.
Qed.

Lemma Step_runInv (t0 : list KeyResult) (s s' : Sys) :
  Step s s' -> runInv t0 s -> runInv t0 s'.
Proof.
  intros HS [Hlen Hqueue Hhold Hframe Hcrash].
  destruct HS as
    [s s' Hws Hq Hres
    |s s' w pc0 pc1 Hw Hws Hq Hres Hnc Hheld
    |s s' w pc0 i r Hw Hheld Hq Hi Hres Hws
    |s s' w pc0 pc1 i r r' Hw Hheld Hpc1 Hnc Hq Hi Hr' Hres Hws
    |s s' w pc0 i Hw Hheld Hi Hres Hws].
  - split; rewrite ?Hws, ?Hq; try done.
    + destruct Hres as [-> | ->]; rewrite ?length_fmap; done.
    + intros i r Hi Hout Hv. destruct Hres as [-> | ->]; [eauto|].
      rewrite list_lookup_fmap, (Hframe i r Hi Hout Hv). simpl.
      now rewrite revertValidating_id.
  - split; rewrite ?Hws, ?Hq, ?Hres; try done.
    + intros k pc i [[-> ->]|[_ Hk]]%lookup_insert_worker Hh; [|eauto].
      rewrite Hheld in Hh. eauto.
    + intros [Heq|Hin]%elem_of_insert_worker; done.
  - assert (i ∈ buildQueue t0) as HiQ
      by (apply Hqueue; rewrite Hq; apply elem_of_cons; now left).
    split; rewrite ?Hws, ?Hres, ?length_insert; try done.
    + intros j Hj. apply Hqueue. rewrite Hq. apply elem_of_cons. now right.
    + intros k pc j [[-> ->]|[_ Hk]]%lookup_insert_worker Hh; [|eauto].
      simpl in Hh. congruence.
    + intros j rj Hj Hout Hv. rewrite list_lookup_insert_ne; [eauto|].
      intros ->. done.
    + intros [Heq|Hin]%elem_of_insert_worker; done.
  - assert (i ∈ buildQueue t0) as HiQ by eauto.
    split; rewrite ?Hws, ?Hq, ?Hres, ?length_insert; try done.
    + intros k pc j [[-> ->]|[_ Hk]]%lookup_insert_worker Hh; [|eauto].
      congruence.
    + intros j rj Hj Hout Hv. rewrite list_lookup_insert_ne; [eauto|].
      intros ->. done.
    + intros [Heq|Hin]%elem_of_insert_worker; done.
  - exfalso.
    assert (i ∈ buildQueue t0) as HiQ.
    { destruct Hheld as [Hheld|[_ Hq]]; [eauto|].
      apply Hqueue. rewrite Hq. apply elem_of_cons. now left. }
    apply buildQueue_in_range in HiQ. apply lookup_ge_None in Hi. lia.
Qed.

(** *** Counting the entries in [validating] *)

Lemma countValidating_app (t1 t2 : list KeyResult) :
  countValidating (t1 ++ t2) = countValidating t1 + countValidating t2.
Proof. unfold countValidating. now rewrite filter_app, length_app. Qed.

(** As many holders as entries in [validating], at least. *)
Lemma countValidating_le_holders (table : list KeyResult) :
  forall holders : list nat,
    (forall i r, table !! i = Some r -> status r = validating -> i ∈ holders) ->
    countValidating table <= length holders.
Proof.
  induction table as [|x table IH] using rev_ind; intros holders Hcov.
  - unfold countValidating. simpl. lia.
  - rewrite countValidating_app.
    assert (forall hs,
      (forall i r, (table ++ [x]) !! i = Some r -> status r = validating ->
                   i <> length table -> i ∈ hs) ->
      countValidating table <= length hs) as IH'.
    { intros hs H. apply IH. intros i r Hi Hv.
      apply (H i r); [|done|].
      - rewrite lookup_app_l; [done|]. eapply lookup_lt_Some, Hi.
      - apply lookup_lt_Some in Hi. lia. }
    unfold countValidating at 2. rewrite filter_cons, filter_nil.
    destruct (decide (status x = validating)) as [Hx|Hx]; simpl.
    + assert (length table ∈ holders) as Hin.
      { apply (Hcov _ x); [|done]. rewrite lookup_app_r by lia.
        now rewrite Nat.sub_diag. }
      apply elem_of_Permutation in Hin as [hs Hhs].
      rewrite Hhs. simpl.
      enough (countValidating table <= length hs) by lia.
      apply IH'. intros i r Hi Hv Hne.
      specialize (Hcov i r Hi Hv). rewrite Hhs in Hcov.
      apply elem_of_cons in Hcov as [->|]; done.
    + enough (countValidating table <= length holders) by lia.
      apply IH'. intros i r Hi Hv _. eauto.
Qed.

Lemma length_omap_held (ws : list Worker) : length (omap held ws) <= length ws.
Proof.
  induction ws as [|w ws IH]; [done|].
  change (omap held (w :: ws))
    with (match held w with
          | Some i => i :: omap held ws
          | None => omap held ws
          end).
  destruct (held w); simpl; lia.
Qed.

Lemma covered_bound (s : Sys) :
  covered s -> countValidating (results (app s)) <= length (workers s).
Proof.
  intros Hc. etrans; [|apply length_omap_held].
  apply countValidating_le_holders. intros i r Hi Hv.
  destruct (Hc i r Hi Hv) as (w & pc & Hw & Hh).
  apply list_elem_of_omap. exists pc. split; [|done].
  eapply list_elem_of_lookup_2, Hw.
Qed.

Lemma noValidating_count (table : list KeyResult) :
  noValidating table <-> countValidating table = 0.
Proof.
  unfold noValidating, countValidating. split.
  - induction 1 as [|r table Hr _ IH]; [done|].
    now rewrite filter_cons_False.
  - induction table as [|r table IH]; [constructor|].
    rewrite filter_cons. destruct (decide _); [discriminate|].
    intros H. constructor; auto.
Qed.

Lemma countValidating_zero (table : list KeyResult) (i : nat) (r : KeyResult) :
  countValidating table = 0 -> table !! i = Some r -> status r <> validating.
Proof.
  unfold countValidating. intros Hz Hi Hv.
  assert (r ∈ filter (fun r => status r = validating) table) as Hin.
  { apply list_elem_of_filter. split; [done|].
    eapply list_elem_of_lookup_2, Hi. }
  destruct (filter _ table); [now apply elem_of_nil in Hin|discriminate].
Qed.

(** ** Claims on a run *)

Lemma handleValidate_runInv (a : App) (s0 : Sys) :
  handleValidate a = Run s0 -> runInv (results (app s0)) s0.
Proof.
  intros H. pose proof (handleValidate_seeds a s0 H) as (_ & Hq & _).
  unfold handleValidate in H. destruct (decide _); [discriminate|].
  destruct (_ =? 0); [discriminate|]. injection H as <-.
  split; simpl in *; try done.
  - intros w pc i Hw Hh. apply lookup_replicate in Hw as [-> _]. done.
  - intros Hin%elem_of_replicate. destruct Hin; done.
Qed.

Lemma handleValidate_workers (a : App) (s0 : Sys) :
  handleValidate a = Run s0 ->
  Z.of_nat (length (workers s0))
  = Z.min (clampConcurrency (concurrencyLimit a)) (Z.of_nat (length (queue s0))).
Proof.
  unfold handleValidate. destruct (decide _); [discriminate|].
  destruct (_ =? 0); [discriminate|]. intros [= <-]. simpl.
  rewrite length_replicate. unfold clampConcurrency. lia.
Qed.

(** Within one call of [handleValidate], while the operator only pauses,
    resumes and stops: the indices the call works on are indices of the
    table, whose length does not change; no write of a worker misses its
    entry, and no worker ends by an exception. *)
Lemma run_never_crashes (a : App) (s0 s : Sys) :
  handleValidate a = Run s0 -> reachable s0 s ->
  (Crashed ∉ workers s)
  /\ length (results (app s)) = length (results (app s0))
  /\ (forall i, i ∈ queue s -> i < length (results (app s))).
Proof.
  intros Hrun Hs.
  enough (runInv (results (app s0)) s) as [Hlen Hq _ _ Hc].
  { split; [exact Hc|]. split; [exact Hlen|].
    intros i Hi%Hq%buildQueue_in_range. lia. }
  revert s Hs. apply reachable_ind_Step.
  - apply handleValidate_runInv with a, Hrun.
  - intros s s' Hinv HS. eapply Step_runInv; eauto.
Qed.

(** A run that starts without an entry in [validating] ends without one,
    and so does the table read back at load: the next run again starts
    without one. *)
Lemma finished_run_leaves_no_validating (a : App) (s0 s : Sys) :
  handleValidate a = Run s0 ->
  countValidating (results (app s0)) = 0 ->
  reachable s0 s ->
  Forall (fun w => w = Done) (workers s) ->
  countValidating (results (app s)) = 0.
Proof.
  intros Hrun Hzero Hs Hdone. apply noValidating_count.
  enough (covered s) as Hcov.
  { apply Forall_lookup. intros i r Hi Hv.
    destruct (Hcov i r Hi Hv) as (w & pc & Hw & Hh).
    rewrite (Forall_lookup_1 _ _ _ _ Hdone Hw) in Hh. discriminate. }
  revert s Hs Hdone. 
  enough (forall s, reachable s0 s -> covered s) by eauto.
  apply reachable_ind_Step.
  - intros i r Hi Hv. now apply (countValidating_zero _ i r Hzero) in Hv.
  - intros s s' Hcov HS. eapply Step_covered; eauto.
Qed.

Lemma loadResults_no_validating (parsed : list KeyResult) :
  countValidating (loadResults parsed) = 0.
Proof.
  apply noValidating_count, Forall_fmap, Forall_forall.
  intros r _. apply revertValidating_status.
Qed.

(** The bound within one call: when [handleValidate] starts on a table
    without an entry in [validating] and no worker of an earlier call is
    in flight, with [C] the configured limit clamped to [1, 50] and [L]
    the length of the queue at the start, exactly [min C L] workers are
    started, their number never changes, and in every state this call
    alone can reach the number of entries in [validating] is at most
    [min C L]. *)
Theorem concurrency_bound (a : App) (s0 : Sys) :
  handleValidate a = Run s0 ->
  countValidating (results (app s0)) = 0 ->
  (1 <= clampConcurrency (concurrencyLimit a) <= 50)%Z
  /\ Z.of_nat (length (workers s0))
     = Z.min (clampConcurrency (concurrencyLimit a))
             (Z.of_nat (length (queue s0)))
  /\ forall s, reachable s0 s ->
       length (workers s) = length (workers s0)
       /\ (Z.of_nat (countValidating (results (app s)))
           <= Z.min (clampConcurrency (concurrencyLimit a))
                    (Z.of_nat (length (queue s0))))%Z.
Proof.
  intros Hrun Hzero.
  split; [unfold clampConcurrency; lia|].
  split; [apply handleValidate_workers, Hrun|].
  intros s Hs. rewrite <- (handleValidate_workers a s0 Hrun).
  enough (length (workers s) = length (workers s0) /\ covered s) as [Hlen Hcov].
  { split; [exact Hlen|]. apply covered_bound in Hcov. lia. }
  revert s Hs. apply reachable_ind_Step.
  - split; [reflexivity|]. intros i r Hi Hv.
    now apply (countValidating_zero _ i r Hzero) in Hv.
  - intros s s' [Hlen Hcov] HS. split.
    + rewrite <- Hlen. apply Step_workers_length, HS.
    + eapply Step_covered; eauto.
Qed.

Lemma concurrency_bound_witness :
  handleValidate two_key_app = Run two_key_run
  /\ countValidating (results (app two_key_run)) = 0
  /\ length (workers two_key_run) = 2
  /\ forall s, reachable two_key_run s ->
       (Z.of_nat (countValidating (results (app s))) <= 2)%Z.
Proof.
  assert (handleValidate two_key_app = Run two_key_run) as Hrun by reflexivity.
  assert (countValidating (results (app two_key_run)) = 0) as Hzero
    by reflexivity.
  destruct (concurrency_bound two_key_app two_key_run Hrun Hzero)
    as (_ & _ & Hreach).
  split; [exact Hrun|]. split; [exact Hzero|]. split; [reflexivity|].
  intros s Hs. apply (Hreach s Hs).
Defined.



(** The scan finds a token whenever the text has one. *)
Lemma matchAll_finds (before tok after : string) :
  isToken tok -> matchAll (before +:+ tok +:+ after) <> [].
Proof.
  intros (body & -> & Hne & Hall). unfold matchAll.
  induction before as [|c before IH].
  - rewrite append_empty_l. destruct body as [|b body]; [done|].
    apply Forall_cons in Hall as [Hb _].
    change (("sk-" +:+ String b body) +:+ after)
      with (String "s" (String "k" (String "-" (String b (body +:+ after))))).
    cbn [matchFrom matchAt takeKeyChars]. rewrite Hb. simpl. done.
  - rewrite append_cons. cbn [matchFrom].
    destruct (matchAt _); [done|exact IH].
Qed.

Lemma containsToken_matchAll (s : string) :
  containsToken s <-> matchAll s <> [].
Proof.
  split.
  - intros (before & tok & after & -> & Htok). now apply matchAll_finds.
  - apply matchFrom_contains.
Qed.

Lemma handleValidate_without_keys_is_noop_witness :
  handleValidate keyless_app = NoKeys keyless_app.
Proof.
  apply handleValidate_without_keys_is_noop.
  - discriminate.
  - rewrite containsToken_matchAll. intros H. apply H. reflexivity.
Defined.

(** C2, as stated, fails: a first run on one key ends with the entry in
    [error] after a transport failure; the next click queues the entry
    again, and the worker that takes it sets its status only: while the
    entry is [validating] it still carries the message of the earlier
    failure. *)
Lemma validating_entry_keeps_stale_message :
  (exists s, fireAll [Wake 0; FetchEnds 0 (Rejected "Failed to fetch");
                      Wake 0; AllEnded] one_key_run = Some s
             /\ app s = retry_app)
  /\ handleValidate retry_app = Run retry_run
  /\ exists s r,
       fire (Wake 0) retry_run = Some s
       /\ results (app s) !! 0 = Some r
       /\ status r = validating
       /\ errorMsg r = Some (FromJson (JStr "Failed to fetch"))
       /\ errorMsg r <> None.
Proof.
  split; [eexists; split; reflexivity|].
  split; [reflexivity|]. do 2 eexists.
  split; [reflexivity|]. split; [reflexivity|]. done.
Qed.

(** C2 (amended): whenever a transition of a run takes an entry into
    [validating], the entry changes in its status only: its key, its
    models and its error message are what they were before. *)
Theorem validating_transition_sets_status_only (e : Event) (s s' : Sys)
    (i : nat) (r r' : KeyResult) :
  fire e s = Some s' ->
  results (app s) !! i = Some r -> status r <> validating ->
  results (app s') !! i = Some r' -> status r' = validating ->
  r' = setStatus validating r
  /\ key r' = key r /\ models r' = models r /\ errorMsg r' = errorMsg r.
Proof.
  intros Hfire Hi Hr Hi' Hr'.
  enough (r' = setStatus validating r) as -> by done.
  apply fire_Step in Hfire.
  destruct Hfire as
    [s s' Hws Hq Hres
    |s s' w pc0 pc1 Hw Hws Hq Hres Hnc Hheld
    |s s' w pc0 j rj Hw Hheld Hq Hj Hres Hws
    |s s' w pc0 pc1 j rj rj' Hw Hheld Hpc1 Hnc Hq Hj Hrj' Hres Hws
    |s s' w pc0 j Hw Hheld Hj Hres Hws].
  - destruct Hres as [Hres|Hres]; rewrite Hres in Hi'; [congruence|].
    apply list_lookup_fmap_Some in Hi' as (r0 & -> & _).
    now apply revertValidating_status in Hr'.
  - congruence.
  - rewrite Hres in Hi'. destruct (decide (i = j)) as [->|Hne].
    + rewrite list_lookup_insert_eq in Hi' by (eapply lookup_lt_Some, Hj).
      congruence.
    + rewrite list_lookup_insert_ne in Hi' by done. congruence.
  - rewrite Hres in Hi'. destruct (decide (i = j)) as [->|Hne].
    + rewrite list_lookup_insert_eq in Hi' by (eapply lookup_lt_Some, Hj).
      congruence.
    + rewrite list_lookup_insert_ne in Hi' by done. congruence.
  - congruence.
Qed.

Lemma validating_transition_sets_status_only_witness :
  exists s,
    fire (Wake 0) retry_run = Some s
    /\ results (app s) !! 0 = Some (setStatus validating failed_entry)
    /\ errorMsg (setStatus validating failed_entry) = errorMsg failed_entry.
Proof.
  eexists. split; [reflexivity|]. split; [reflexivity|].
  eapply (validating_transition_sets_status_only (Wake 0) retry_run _ 0
            failed_entry (setStatus validating failed_entry)).
  - reflexivity.
  - reflexivity.
  - discriminate.
  - reflexivity.
  - reflexivity.
Defined.

(** ** Stopping *)

Lemma handleStop_noValidating (a : App) :
  statusRef (handleStop a) = stopped /\ noValidating (results (handleStop a)).
Proof.
  split; [reflexivity|]. simpl. apply Forall_fmap, Forall_forall.
  intros r _. apply revertValidating_status.
Qed.

Lemma writes_noValidating (w i : nat) (f : KeyResult -> KeyResult)
    (pc : Worker) (s : Sys) :
  (forall r, status (f r) <> validating) ->
  statusRef (app s) = stopped ->
  noValidating (results (app s)) ->
  statusRef (app (writes w i f pc s)) = stopped
  /\ noValidating (results (app (writes w i f pc s))).
Proof.
  intros Hf Hst Hno. unfold writes, writeAt.
  destruct (results (app s) !! i) as [r|]; simpl; [|done].
  split; [exact Hst|]. now apply Forall_insert.
Qed.

(** While the run state stays [stopped], no transition puts an entry into
    [validating]. *)
Lemma fire_stopped (e : Event) (s s' : Sys) :
  keepsStopped e -> fire e s = Some s' ->
  statusRef (app s) = stopped -> noValidating (results (app s)) ->
  statusRef (app s') = stopped /\ noValidating (results (app s')).
Proof.
  intros He Hfire Hst Hno.
  destruct e as [w|w r|w b| | | |]; simpl in *; try done.
  - destruct (workers s !! w) as [[]|]; try discriminate;
      injection Hfire as <-.
    + unfold loopHead. destruct (queue s); [done|]. now rewrite Hst.
    + unfold pauseWake. now rewrite Hst.
  - destruct (workers s !! w) as [[]|]; try discriminate;
      injection Hfire as <-.
    unfold fetchDone. destruct r as [httpStatus|msg].
    + destruct (decide _); [|done]. now apply writes_noValidating.
    + apply writes_noValidating; [apply applyOutcome_status|done..].
  - destruct (workers s !! w) as [[]|]; try discriminate;
      injection Hfire as <-.
    apply writes_noValidating; [apply applyOutcome_status|done..].
  - injection Hfire as <-. apply handleStop_noValidating.
  - destruct (_ && _); [|discriminate]. injection Hfire as <-. simpl.
    destruct (decide _); done.
Qed.

(** After a stop, whatever the workers of the call then do and whatever
    their requests return, the run state stays [stopped] and no entry is in
    [validating], until the operator starts again. *)
Lemma stop_leaves_no_validating (es : list Event) (s s1 s2 : Sys) :
  fire ClickStop s = Some s1 ->
  Forall keepsStopped es ->
  fireAll es s1 = Some s2 ->
  statusRef (app s2) = stopped /\ countValidating (results (app s2)) = 0.
Proof.
  intros [= <-] Hes. rewrite <- noValidating_count.
  pose proof (handleStop_noValidating (app s)) as [Hst Hno].
  change (statusRef (app (withApp (handleStop (app s)) s)) = stopped) in Hst.
  change (noValidating (results (app (withApp (handleStop (app s)) s)))) in Hno.
  revert Hst Hno. generalize (withApp (handleStop (app s)) s). clear s.
  induction Hes as [|e es He _ IH]; intros s Hst Hno; simpl.
  - intros [= <-]. done.
  - destruct (fire e s) as [s'|] eqn:E; [|discriminate].
    destruct (fire_stopped e s s' He E Hst Hno). now apply IH.
Qed.

(** The path of [processNext] that does what C3 says: a [fetch] that
    resolves while the run state is [stopped] puts the entry back to
    [pending], writes nothing else and ends the worker. *)
Lemma fetch_resolved_while_stopped (w i httpStatus : nat) (s : Sys)
    (r : KeyResult) :
  workers s !! w = Some (Fetching i) ->
  statusRef (app s) = stopped ->
  results (app s) !! i = Some r ->
  exists s',
    fire (FetchEnds w (Resolved httpStatus)) s = Some s'
    /\ results (app s') = <[i := setStatus pending r]> (results (app s))
    /\ workers s' = <[w := Done]> (workers s)
    /\ queue s' = queue s.
Proof.
  intros Hw Hst Hi. eexists. split.
  { simpl. rewrite Hw. reflexivity. }
  unfold fetchDone. destruct (decide _); [|done].
  unfold writes, writeAt. rewrite Hi. done.
Qed.

(** C3 (the code at the failing input): the operator stops the run while
    the [fetch] of the one worker is in flight, and the [fetch] then fails
    in transport.  The [catch] does not look at the run state: the entry,
    which the stop handler had put back to [pending], becomes [error] with
    the message of the failure, and the worker does not leave its loop at
    once but goes into its delay. *)
Theorem transport_failure_while_stopped_is_recorded :
  fireAll [Wake 0; ClickStop] one_key_run = Some stopped_in_flight
  /\ statusRef (app stopped_in_flight) = stopped
  /\ workers stopped_in_flight !! 0 = Some (Fetching 0)
  /\ exists s,
       fire (FetchEnds 0 (Rejected "Failed to fetch")) stopped_in_flight
       = Some s
       /\ results (app s)
          = [ {| key := "sk-A"; status := error; models := [];
                 errorMsg := Some (FromJson (JStr "Failed to fetch")) |} ]
       /\ workers s = [Ready].
Proof.
  split; [reflexivity|]. split; [reflexivity|]. split; [reflexivity|].
  eexists. split; [reflexivity|]. split; reflexivity.
Qed.

(** C7 (the code at the failing input): two runs on one key that are
    stopped while the entry is [validating] and then settle, with every
    worker ended and the code after [Promise.all] run.  In the first the
    [fetch] fails after the stop; in the second the response had arrived
    before the stop and its body is read after it.  No entry is
    [validating] at the end, but the entry that was [validating] is not
    [pending]: it is [error] in the first run and [valid] in the second. *)
Theorem stopped_run_settles_with_outcome :
  (exists s,
     fireAll [Wake 0; ClickStop; FetchEnds 0 (Rejected "Failed to fetch");
              Wake 0; AllEnded] one_key_run = Some s
     /\ workers s = [Done] /\ joined s = true
     /\ statusRef (app s) = stopped
     /\ countValidating (results (app s)) = 0
     /\ status <$> results (app s) = [error])
  /\ (exists s,
        fireAll [Wake 0; FetchEnds 0 (Resolved 200); ClickStop;
                 BodyEnds 0 (BodyJson sample_models_body);
                 Wake 0; AllEnded] one_key_run = Some s
        /\ workers s = [Done] /\ joined s = true
        /\ statusRef (app s) = stopped
        /\ countValidating (results (app s)) = 0
        /\ status <$> results (app s) = [valid]).
Proof.
  split; eexists; (split; [reflexivity|]); repeat split.
Qed.

(** * Further properties of the code *)

(** ** What the extractors return *)

Lemma occursIn_cons (c : ascii) (k s : string) :
  occursIn k s -> occursIn k (String c s).
Proof.
  intros (before & after & ->). exists (String c before), after. reflexivity.
Qed.

Lemma matchFrom_sound (s : string) : forall skip k,
  k ∈ matchFrom skip s -> isToken k /\ occursIn k s.
Proof.
  induction s as [|c s IH]; intros skip k; [intros H; now apply elem_of_nil in H|].
  assert (forall n, k ∈ matchFrom n s -> isToken k /\ occursIn k (String c s))
    as Hrest.
  { intros n [Htok Hocc]%IH. split; [exact Htok|now apply occursIn_cons]. }
  destruct skip as [|n]; cbn [matchFrom]; [|apply Hrest].
  destruct (matchAt (String c s)) as [tok|] eqn:E; [|apply Hrest].
  intros [->|Hin]%elem_of_cons; [|eapply Hrest, Hin].
  apply matchAt_token in E as [Htok [after Hs]]. split; [exact Htok|].
  exists "", after. rewrite append_empty_l. exact Hs.
Qed.

Lemma setAddAll_nil_inv (ks : list string) :
  Js.setAddAll [] ks = [] -> ks = [].
Proof.
  destruct ks as [|k ks]; [done|]. intros H.
  assert (k ∈ Js.setAddAll [] (k :: ks)) as Hin
    by (apply setAddAll_elem; right; apply elem_of_cons; now left).
  rewrite H in Hin. now apply elem_of_nil in Hin.
Qed.

Lemma uniqueKeysOf_tokens (text : string) :
  NoDup (uniqueKeysOf text)
  /\ Forall (fun k => isToken k /\ occursIn k text) (uniqueKeysOf text).
Proof.
  rewrite uniqueKeysOf_matchAll. split; [apply setAddAll_NoDup, NoDup_nil_2|].
  apply Forall_forall. intros k [Hk|Hk]%setAddAll_elem.
  - now apply elem_of_nil in Hk.
  - eapply matchFrom_sound, Hk.
Qed.

(** X1: the list [Array.from(new Set(text.match(...) || []))] has no
    repetition; it holds exactly the matches of the scan; each of its
    elements has the shape of a credential and is a piece of the text; and
    it is empty exactly when the text has no piece of that shape. *)
Theorem uniqueKeysOf_sound (text : string) :
  NoDup (uniqueKeysOf text)
  /\ (forall k, k ∈ uniqueKeysOf text <-> k ∈ matchAll text)
  /\ Forall (fun k => isToken k /\ occursIn k text) (uniqueKeysOf text)
  /\ (uniqueKeysOf text = [] <-> ~ containsToken text).
Proof.
  rewrite uniqueKeysOf_matchAll.
  assert (forall k, k ∈ Js.setAddAll [] (matchAll text) <-> k ∈ matchAll text)
    as Hel.
  { intros k. rewrite setAddAll_elem, elem_of_nil. tauto. }
  split; [apply setAddAll_NoDup, NoDup_nil_2|]. split; [exact Hel|]. split.
  - apply Forall_forall. intros k Hk%Hel. eapply matchFrom_sound, Hk.
  - rewrite containsToken_matchAll. split.
    + intros H%setAddAll_nil_inv. tauto.
    + intros H. destruct (matchAll text) as [|k ks]; [reflexivity|].
      exfalso. apply H. discriminate.
Qed.

Lemma substring_slice (file : string) (o c : nat) :
  String.substring 0 o file +:+ Js.slice file o (o + c)
  = String.substring 0 (o + c) file.
Proof.
  apply chars_inj. unfold Js.slice.
  rewrite chars_append, !chars_substring, !drop_0.
  pose proof (chars_length file) as Hlen.
  destruct (Nat.le_gt_cases (Js.size file) o) as [Ho|Ho].
  - rewrite (Nat.min_r o), (Nat.min_r (o + c)) by lia.
    rewrite Nat.sub_diag, take_0, app_nil_r, !take_ge by lia. reflexivity.
  - rewrite (Nat.min_l o) by lia.
    destruct (Nat.le_gt_cases (o + c) (Js.size file)) as [Hc|Hc].
    + rewrite (Nat.min_l (o + c)) by lia.
      replace (o + c - o) with c by lia. apply take_take_drop.
    + rewrite (Nat.min_r (o + c)) by lia.
      rewrite (take_ge _ (o + c)) by lia.
      rewrite (take_ge (drop o (chars file))) by (rewrite length_drop; lia).
      apply take_drop.
Qed.

Lemma occursIn_middle (k a pre post : string) :
  occursIn k a -> occursIn k (pre +:+ a +:+ post).
Proof.
  intros (before & after & ->). exists (pre +:+ before), (after +:+ post).
  now rewrite !append_assoc.
Qed.

Lemma occursIn_prefix (k file : string) (n : nat) (pre a rest : string) :
  String.substring 0 n file = pre +:+ a +:+ rest ->
  occursIn k a -> occursIn k file.
Proof.
  intros Hsub Hocc. rewrite <- (substring_dropS file n), Hsub.
  rewrite !append_assoc. now apply occursIn_middle.
Qed.

Lemma addMatches_tokens (ks : list string) (cur : string) :
  NoDup ks /\ Forall isToken ks ->
  NoDup (addMatches ks cur) /\ Forall isToken (addMatches ks cur).
Proof.
  intros [Hnd Hall]. rewrite addMatches_matchAll. split.
  - now apply setAddAll_NoDup.
  - apply Forall_forall. intros k [Hk|Hk]%setAddAll_elem.
    + eapply Forall_forall in Hall; eauto.
    + now apply matchFrom_sound in Hk as [Htok _].
Qed.

(** Whatever the bytes of the file, the keys collected are distinct
    strings of the credential shape. *)
Lemma extractLoop_tokens (C : nat) (file : string) : forall fuel st st',
  NoDup (keys st) /\ Forall isToken (keys st) ->
  extractLoop fuel C file st = Some st' ->
  NoDup (keys st') /\ Forall isToken (keys st').
Proof.
  induction fuel as [|fuel IH]; intros st st' Hinv; cbn [extractLoop];
    destruct (offset st <? Js.size file); try discriminate;
    try (intros [= <-]; exact Hinv).
  apply IH. unfold chunkStep. cbn [keys]. now apply addMatches_tokens.
Qed.

Section ExtractorSound.

Variable C : nat.
Variable file : string.
Hypothesis C_pos : 0 < C.
Hypothesis file_ascii : isAscii file = true.

Lemma addMatches_good (ks : list string) (cur : string) :
  (forall k, occursIn k cur -> occursIn k file) ->
  goodKeys file ks -> goodKeys file (addMatches ks cur).
Proof.
  intros Hcur [Hnd Hall]. rewrite addMatches_matchAll. split.
  - now apply setAddAll_NoDup.
  - apply Forall_forall. intros k [Hk|Hk]%setAddAll_elem.
    + eapply Forall_forall in Hall; eauto.
    + apply matchFrom_sound in Hk as [Htok Hocc]. auto.
Qed.

Lemma chunkStep_inv (st : cursor) :
  cursorInv file st -> cursorInv file (chunkStep C file st).
Proof using C_pos file_ascii.
  intros [[pre Hpre] Hgood]. unfold chunkStep.
  rewrite (text_slice file _ _ file_ascii).
  remember (tail st +:+ Js.slice file (offset st) (offset st + C))
    as buf eqn:Ebuf.
  assert (buf = tail st
                +:+ Blob.text (Js.slice file (offset st) (offset st + C)))
    as Ebuf' by (now rewrite (text_slice file _ _ file_ascii)).
  assert (String.substring 0 (offset st + C) file = pre +:+ buf) as Hbuf.
  { rewrite <- substring_slice, Hpre, Ebuf. apply append_assoc. }
  unfold cursorInv.
  destruct (holdsBack C file st) eqn:Hhold; cbn [offset tail keys].
  - destruct (holdsBack_cut C file C_pos st buf Ebuf' Hhold)
      as (cur & rest & -> & -> & Hcut).
    split.
    + exists (pre +:+ cur). now rewrite Hbuf, Hcut, append_assoc.
    + apply addMatches_good; [|exact Hgood]. intros k Hk.
      apply (occursIn_prefix k file (offset st + C) pre cur
               (String newline rest)); [|exact Hk].
      now rewrite Hbuf, Hcut.
  - split.
    + exists (pre +:+ buf). now rewrite append_empty_r.
    + apply addMatches_good; [|exact Hgood]. intros k Hk.
      apply (occursIn_prefix k file (offset st + C) pre buf ""); [|exact Hk].
      now rewrite append_empty_r.
Qed.

Lemma extractLoop_inv : forall fuel st st',
  cursorInv file st -> extractLoop fuel C file st = Some st' ->
  cursorInv file st'.
Proof using C_pos file_ascii.
  induction fuel as [|fuel IH]; intros st st' Hinv; simpl;
    destruct (offset st <? Js.size file); try discriminate;
    try (intros [= <-]; exact Hinv).
  apply IH, chunkStep_inv, Hinv.
Qed.

End ExtractorSound.

(** X2: for every positive chunk size and every file,
    [extractKeysFromText] returns, and what it returns has no repetition
    and consists of strings of the credential shape.  For a file of ASCII
    bytes each of them is a piece of the file, and the result is empty
    when the file has no such piece.  (A chunk that begins with a byte
    order mark can join two pieces of a file that is not ASCII.) *)
Theorem extractKeysFromText_sound (C : nat) (file : string) :
  0 < C ->
  exists ks,
    extractKeysFromText C file = Some ks
    /\ NoDup ks
    /\ Forall isToken ks
    /\ (isAscii file = true ->
        Forall (fun k => occursIn k file) ks
        /\ (~ containsToken file -> ks = [])).
Proof.
  intros HC. unfold extractKeysFromText.
  destruct (extractLoop_total C file HC (Js.size file)
              {| offset := 0; tail := ""; keys := [] |}) as [st Hst];
    [simpl; lia|].
  rewrite Hst. eexists. split; [reflexivity|].
  assert (NoDup (keys st) /\ Forall isToken (keys st)) as Htok.
  { eapply (extractLoop_tokens C file); [|exact Hst].
    split; [apply NoDup_nil_2|constructor]. }
  assert (NoDup (if decide (tail st = "") then keys st
                 else addMatches (keys st) (tail st))
          /\ Forall isToken (if decide (tail st = "") then keys st
                             else addMatches (keys st) (tail st)))
    as [Hnd Hall]
    by (destruct (decide _); [exact Htok|now apply addMatches_tokens]).
  split; [exact Hnd|]. split; [exact Hall|]. intros Hascii.
  assert (cursorInv file st) as [[pre Hpre] Hgood].
  { eapply (extractLoop_inv C file HC Hascii); [|exact Hst]. split.
    - exists "". simpl. now destruct file.
    - split; [apply NoDup_nil_2|constructor]. }
  assert (goodKeys file
            (if decide (tail st = "") then keys st
             else addMatches (keys st) (tail st))) as [_ Hocc].
  { destruct (decide _); [exact Hgood|].
    apply addMatches_good; [|exact Hgood]. intros k Hk.
    apply (occursIn_prefix k file (offset st) pre (tail st) ""); [|exact Hk].
    now rewrite append_empty_r. }
  split.
  - eapply Forall_impl; [exact Hocc|]. now intros k [_ Hk].
  - intros Hno. destruct (if decide _ then _ else _) as [|k ks]; [reflexivity|].
    exfalso. apply Forall_cons in Hocc as [[Htk (before & after & ->)] _].
    apply Hno. now exists before, k, after.
Qed.

Lemma extractKeysFromText_sound_witness :
  exists ks,
    extractKeysFromText 7 cut_file = Some ks
    /\ NoDup ks
    /\ Forall isToken ks
    /\ Forall (fun k => occursIn k cut_file) ks.
Proof.
  destruct (extractKeysFromText_sound 7 cut_file)
    as (ks & H & Hnd & Hall & Hascii); [lia|].
  destruct Hascii as [Hocc _]; [reflexivity|].
  exists ks. auto.
Defined.

(** ** Import and export *)

Lemma isSpace_outside (c : ascii) : isSpace c = true -> isKeyChar c = false.
Proof.
  destruct c as [[] [] [] [] [] [] [] []]; intros H;
    first [reflexivity | discriminate H].
Qed.

Lemma matchAll_empty : matchAll "" = [].
Proof. reflexivity. Qed.

Lemma matchAll_spaces (w : string) :
  Forall (fun c => isSpace c = true) (chars w) ->
  forall a, matchAll (a +:+ w) = matchAll a.
Proof.
  induction w as [|c w IH]; intros Hall a.
  - now rewrite append_empty_r.
  - apply Forall_cons in Hall as [Hc Hall].
    rewrite (matchAll_sep c (isSpace_outside c Hc)).
    rewrite <- (append_empty_l w), (IH Hall ""), matchAll_empty.
    apply app_nil_r.
Qed.

Lemma trimEnd_split (s : string) :
  exists w, s = trimEnd s +:+ w /\ Forall (fun c => isSpace c = true) (chars w).
Proof.
  induction s as [|c s (w & Hs & Hw)]; [exists ""; split; [done|constructor]|].
  cbn [trimEnd]. destruct (trimEnd s) as [|d r] eqn:E.
  - destruct (isSpace c) eqn:Ec.
    + exists (String c w). split; [rewrite append_empty_l in *; congruence|].
      now constructor.
    + exists w. split; [|exact Hw].
      rewrite append_cons, append_empty_l in *. congruence.
  - exists w. split; [|exact Hw]. rewrite append_cons. congruence.
Qed.

Lemma matchAll_trimStart (s : string) : matchAll (trimStart s) = matchAll s.
Proof.
  induction s as [|c s IH]; [reflexivity|]. cbn [trimStart].
  destruct (isSpace c) eqn:Ec; [|reflexivity].
  now rewrite (matchAll_sep_head c (isSpace_outside c Ec)).
Qed.

(** Trimming does not change what the scan finds. *)
Lemma matchAll_trim (s : string) : matchAll (trim s) = matchAll s.
Proof.
  unfold trim. transitivity (matchAll (trimStart s));
    [|apply matchAll_trimStart].
  destruct (trimEnd_split (trimStart s)) as (w & Hs & Hw).
  rewrite <- (matchAll_spaces w Hw (trimEnd (trimStart s))).
  now rewrite <- Hs.
Qed.

Lemma takeKeyChars_all (body : string) :
  Forall (fun c => isKeyChar c = true) (chars body) ->
  takeKeyChars body = body.
Proof.
  induction body as [|c body IH]; [reflexivity|].
  intros [Hc Hall]%Forall_cons. simpl. now rewrite Hc, IH.
Qed.

Lemma matchFrom_skip_all (s : string) : forall skip,
  Js.size s <= skip -> matchFrom skip s = [].
Proof.
  induction s as [|c s IH]; intros skip Hs; [reflexivity|].
  destruct skip as [|n]; simpl in Hs; [lia|]. cbn [matchFrom]. apply IH. lia.
Qed.

(** The scan of a credential finds the credential. *)
Lemma matchAll_token (k : string) : isToken k -> matchAll k = [k].
Proof.
  intros (body & -> & Hne & Hall). unfold matchAll.
  destruct body as [|b body]; [done|].
  change ("sk-" +:+ String b body)
    with (String "s" (String "k" (String "-" (String b body)))).
  cbn [matchFrom matchAt]. rewrite (takeKeyChars_all _ Hall). simpl.
  f_equal. apply matchFrom_skip_all. simpl. lia.
Qed.

Lemma joinLines_cons (k k' : string) (ks : list string) :
  joinLines (k :: k' :: ks) = k +:+ String newline (joinLines (k' :: ks)).
Proof. reflexivity. Qed.

Lemma matchAll_joinLines (ks : list string) :
  Forall isToken ks -> matchAll (joinLines ks) = ks.
Proof.
  induction ks as [|k [|k' ks] IH]; intros Hall.
  - reflexivity.
  - apply Forall_cons in Hall as [Hk _]. now apply matchAll_token.
  - apply Forall_cons in Hall as [Hk Hall].
    rewrite joinLines_cons, (matchAll_sep newline newline_outside).
    now rewrite (matchAll_token k Hk), (IH Hall).
Qed.

Lemma setAddAll_distinct (ks : list string) : forall acc,
  NoDup (acc ++ ks) -> Js.setAddAll acc ks = acc ++ ks.
Proof.
  induction ks as [|k ks IH]; intros acc Hnd; simpl.
  - now rewrite app_nil_r.
  - unfold Js.setAdd. destruct (decide (k ∈ acc)) as [Hin|Hout].
    + apply NoDup_app in Hnd as (_ & Hdis & _). exfalso.
      apply (Hdis k Hin). apply elem_of_cons. now left.
    + rewrite (IH (acc ++ [k])); rewrite <- app_assoc; [reflexivity|exact Hnd].
Qed.

Lemma arrayFromSet_distinct (ks : list string) :
  NoDup ks -> Js.arrayFromSet ks = ks.
Proof. intros H. now apply (setAddAll_distinct ks []). Qed.

(** X3: reading a file into the input keeps every key the input had and
    puts the keys of the file behind them: the scan of the new input finds
    the matches of the old input followed by the imported keys, so the keys
    [handleValidate] then works on are the earlier ones followed by the
    imported ones that are new.  (The keys of a file are strings of the
    credential shape.) *)
Theorem import_appends_keys (prev : string) (uniqueNewKeys : list string) :
  Forall isToken uniqueNewKeys ->
  matchAll (importKeys prev uniqueNewKeys) = matchAll prev ++ uniqueNewKeys
  /\ uniqueKeysOf (importKeys prev uniqueNewKeys)
     = Js.setAddAll (uniqueKeysOf prev) uniqueNewKeys.
Proof.
  intros Hall.
  assert (matchAll (importKeys prev uniqueNewKeys)
          = matchAll prev ++ uniqueNewKeys) as Hm.
  { unfold importKeys. destruct uniqueNewKeys as [|k ks]; simpl.
    { now rewrite app_nil_r. }
    unfold mergeInput. destruct (String.eqb_spec (trim prev) "") as [He|Hne];
      simpl.
    - rewrite (matchAll_joinLines _ Hall), <- matchAll_trim, He.
      reflexivity.
    - rewrite (matchAll_sep newline newline_outside), matchAll_trim.
      now rewrite (matchAll_joinLines _ Hall). }
  split; [exact Hm|].
  rewrite !uniqueKeysOf_matchAll, Hm. apply setAddAll_app.
Qed.

Lemma import_appends_keys_witness :
  uniqueKeysOf (importKeys (" sk-A " +:+ String newline "") ["sk-B"; "sk-A"])
  = ["sk-A"; "sk-B"].
Proof.
  destruct (import_appends_keys (" sk-A " +:+ String newline "")
              ["sk-B"; "sk-A"]) as [_ H].
  - repeat constructor; eexists; (split; [reflexivity|]);
      (split; [discriminate|repeat constructor]).
  - rewrite H. reflexivity.
Defined.

(** X4: the file of usable keys, read back by the scan, gives the keys of
    the [valid] entries, each once, in the order of the table, and no key
    of another entry (for a table whose keys have the credential shape, as
    the tables [handleValidate] builds have). *)
Theorem export_reads_back (table : list KeyResult) :
  Forall (fun r => isToken (key r)) table ->
  matchAll (downloadValidKeys table)
  = key <$> filter (fun r => status r = valid) table.
Proof.
  intros Hall. unfold downloadValidKeys. apply matchAll_joinLines.
  apply Forall_fmap, Forall_forall. intros r [_ Hr]%list_elem_of_filter.
  eapply Forall_forall in Hall; eauto.
Qed.

Lemma export_reads_back_witness :
  matchAll (downloadValidKeys export_table) = ["sk-A1"; "sk-C3"].
Proof.
  rewrite export_reads_back; [reflexivity|].
  repeat constructor; eexists; (split; [reflexivity|]);
    (split; [discriminate|repeat constructor]).
Defined.

(** ** The earlier reading of the input, line by line *)

Lemma isToken_chars (k : string) :
  isToken k -> k <> "" /\ Forall (fun c => isKeyChar c = true) (chars k).
Proof.
  intros (body & -> & _ & Hall). split; [discriminate|].
  rewrite chars_append. apply Forall_app. split; [|exact Hall].
  repeat constructor.
Qed.

Lemma keyChar_not_space (c : ascii) : isKeyChar c = true -> isSpace c = false.
Proof.
  intros Hc. destruct (isSpace c) eqn:E; [|reflexivity].
  apply isSpace_outside in E. congruence.
Qed.

Lemma keyChar_not_newline (c : ascii) :
  isKeyChar c = true -> Ascii.eqb c newline = false.
Proof.
  intros Hc. destruct (Ascii.eqb_spec c newline) as [->|]; [|reflexivity].
  discriminate Hc.
Qed.

Lemma splitOn_nonempty (c : ascii) (s : string) : splitOn c s <> [].
Proof.
  destruct s as [|d s]; simpl; [done|].
  destruct (Ascii.eqb d c); [done|]. now destruct (splitOn c s).
Qed.

Lemma splitOn_line (a b : string) :
  Forall (fun c => isKeyChar c = true) (chars a) ->
  splitOn newline (a +:+ String newline b) = a :: splitOn newline b.
Proof.
  induction a as [|c a IH]; intros Hall.
  - rewrite append_empty_l. reflexivity.
  - apply Forall_cons in Hall as [Hc Hall]. rewrite append_cons.
    cbn [splitOn]. now rewrite (keyChar_not_newline c Hc), (IH Hall).
Qed.

Lemma splitOn_last (a : string) :
  Forall (fun c => isKeyChar c = true) (chars a) ->
  splitOn newline a = [a].
Proof.
  induction a as [|c a IH]; intros Hall; [reflexivity|].
  apply Forall_cons in Hall as [Hc Hall]. cbn [splitOn].
  now rewrite (keyChar_not_newline c Hc), (IH Hall).
Qed.

Lemma splitOn_joinLines (ks : list string) :
  ks <> [] -> Forall isToken ks -> splitOn newline (joinLines ks) = ks.
Proof.
  induction ks as [|k [|k' ks] IH]; intros Hne Hall; [done| |].
  - apply Forall_cons in Hall as [[_ Hk]%isToken_chars _].
    now apply splitOn_last.
  - apply Forall_cons in Hall as [[_ Hk]%isToken_chars Hall].
    rewrite joinLines_cons, (splitOn_line _ _ Hk), IH; done.
Qed.

Lemma trimEnd_no_space (s : string) :
  Forall (fun c => isSpace c = false) (chars s) -> trimEnd s = s.
Proof.
  induction s as [|c s IH]; [reflexivity|].
  intros [Hc Hall]%Forall_cons. cbn [trimEnd]. rewrite (IH Hall), Hc.
  now destruct s.
Qed.

Lemma trim_token (k : string) : isToken k -> trim k = k.
Proof.
  intros [Hne Hall]%isToken_chars. unfold trim.
  assert (Forall (fun c => isSpace c = false) (chars k)) as Hns.
  { eapply Forall_impl; [exact Hall|]. apply keyChar_not_space. }
  assert (trimStart k = k) as ->.
  { destruct k as [|c k]; [done|]. apply Forall_cons in Hns as [Hc _].
    cbn [trimStart]. now rewrite Hc. }
  now apply trimEnd_no_space.
Qed.

(** X5: on an input that is a list of credentials, one per line (what an
    import writes into an empty input), the earlier [handleValidate],
    which takes the trimmed non-empty lines as keys, and the present one,
    which scans for the pattern, work on the same keys: the credentials
    without repetitions, in first-seen order. *)
Theorem line_reading_agrees_with_scan (ks : list string) :
  Forall isToken ks ->
  lineKeys (joinLines ks) = Js.arrayFromSet ks
  /\ uniqueKeysOf (joinLines ks) = Js.arrayFromSet ks.
Proof.
  intros Hall. split.
  - destruct ks as [|k ks']; [reflexivity|]. unfold lineKeys.
    rewrite splitOn_joinLines by done. f_equal.
    induction Hall as [|x xs Hx _ IH]; [reflexivity|].
    rewrite fmap_cons, (trim_token x Hx), filter_cons_True, IH; [done|].
    apply isToken_chars in Hx as [Hne _]. destruct x; [done|simpl; lia].
  - rewrite uniqueKeysOf_matchAll, matchAll_joinLines by done. reflexivity.
Qed.

Lemma line_reading_agrees_with_scan_witness :
  lineKeys (joinLines ["sk-A1"; "sk-B2"; "sk-A1"]) = ["sk-A1"; "sk-B2"]
  /\ uniqueKeysOf (joinLines ["sk-A1"; "sk-B2"; "sk-A1"]) = ["sk-A1"; "sk-B2"].
Proof.
  destruct (line_reading_agrees_with_scan ["sk-A1"; "sk-B2"; "sk-A1"])
    as [H1 H2].
  - repeat constructor; eexists; (split; [reflexivity|]);
      (split; [discriminate|repeat constructor]).
  - rewrite H1, H2. split; reflexivity.
Defined.

(** ** The window of the list *)

Lemma ceilDiv_spec (a b : Z) :
  (0 < b)%Z -> (a <= ceilDiv a b * b < a + b)%Z.
Proof.
  intros Hb. unfold ceilDiv.
  pose proof (Z.div_mod (- a) b ltac:(lia)) as Hdm.
  pose proof (Z.mod_pos_bound (- a) b Hb) as Hm. nia.
Qed.

(** X6: [VirtualList] never asks for a row outside the table, it renders
    every row of which some pixel is in view, and the number of rows it
    renders is bounded by the height of the view, whatever the length of
    the table. *)
Theorem window_covers_view (v : Viewport) :
  (0 < itemSize v)%Z -> (0 <= scrollTop v)%Z -> (0 <= height v)%Z ->
  (forall i, i ∈ renderedRows v -> (0 <= i < itemCount v)%Z)
  /\ (forall i, (0 <= i < itemCount v)%Z ->
        (i * itemSize v < scrollTop v + height v)%Z ->
        (scrollTop v < (i + 1) * itemSize v)%Z ->
        i ∈ renderedRows v)
  /\ (Z.of_nat (length (renderedRows v)) <= height v / itemSize v + 7)%Z.
Proof.
  intros Hsize Htop Hheight. unfold renderedRows, startIndex, endIndex.
  pose proof (ceilDiv_spec (scrollTop v + height v) (itemSize v) Hsize) as Hc.
  pose proof (Z.div_mod (scrollTop v) (itemSize v) ltac:(lia)) as Hdm.
  pose proof (Z.mod_pos_bound (scrollTop v) (itemSize v) Hsize) as Hm.
  pose proof (Z.div_mod (height v) (itemSize v) ltac:(lia)) as Hdh.
  pose proof (Z.mod_pos_bound (height v) (itemSize v) Hsize) as Hmh.
  split; [|split].
  - intros i Hi%elem_of_seqZ. lia.
  - intros i Hi Hlo Hhi. apply elem_of_seqZ. split; [|nia]. nia.
  - rewrite length_seqZ. nia.
Qed.

Lemma window_covers_view_witness :
  (100%Z ∈ renderedRows {| itemCount := 100000; itemSize := 48; height := 480;
                          scrollTop := 4800 |})
  /\ (109%Z ∈ renderedRows {| itemCount := 100000; itemSize := 48;
                             height := 480; scrollTop := 4800 |})
  /\ (Z.of_nat (length (renderedRows {| itemCount := 100000; itemSize := 48;
                                        height := 480; scrollTop := 4800 |}))
      <= 17)%Z.
Proof.
  destruct (window_covers_view
              {| itemCount := 100000; itemSize := 48; height := 480;
                 scrollTop := 4800 |}) as (_ & Hcov & Hlen).
  - simpl. lia.
  - simpl. lia.
  - simpl. lia.
  - split; [apply Hcov; simpl; lia|]. split; [apply Hcov; simpl; lia|].
    exact Hlen.
Defined.

(** ** The run, transition by transition *)

Lemma fire_Transition (e : Event) (s s' : Sys) :
  fire e s = Some s' -> Transition s e s'.
Proof.
  destruct e as [w|w r|w b| | | |]; simpl.
  - destruct (workers s !! w) as [[]|] eqn:Hw; try discriminate; intros [= <-].
    + unfold loopHead. destruct (queue s) as [|i rest] eqn:Eq.
      { eapply TExit; eauto. }
      destruct (statusRef (app s)) eqn:Est.
      * unfold dequeue. rewrite Eq. eapply TClaim; eauto; congruence.
      * unfold dequeue. rewrite Eq. eapply TClaim; eauto; congruence.
      * eapply TWait; eauto.
      * eapply TExit; eauto.
    + unfold pauseWake. destruct (statusRef (app s)) eqn:Est.
      * unfold dequeue. destruct (queue s) as [|i rest] eqn:Eq.
        { eapply TExit; eauto. }
        eapply TClaim; eauto; congruence.
      * unfold dequeue. destruct (queue s) as [|i rest] eqn:Eq.
        { eapply TExit; eauto. }
        eapply TClaim; eauto; congruence.
      * eapply TWait; eauto.
      * eapply TExit; eauto.
  - destruct (workers s !! w) as [[]|] eqn:Hw; try discriminate; intros [= <-].
    unfold fetchDone. destruct r as [httpStatus|msg].
    + destruct (decide _).
      * now apply TRevert.
      * now apply TResponse.
    + now apply TFailure.
  - destruct (workers s !! w) as [[]|] eqn:Hw; try discriminate; intros [= <-].
    now apply TBody.
  - intros [= <-]. constructor.
  - destruct (decide _); [|discriminate]. intros [= <-]. now constructor.
  - intros [= <-]. constructor.
  - destruct (bool_decide _) eqn:Eb; [|discriminate].
    destruct (joined s) eqn:Ej; [discriminate|]. intros [= <-].
    apply bool_decide_eq_true in Eb. now constructor.
Qed.

Lemma writes_cases (w i : nat) (f : KeyResult -> KeyResult) (pc : Worker)
    (s : Sys) :
  (exists r, results (app s) !! i = Some r
             /\ writes w i f pc s
                = moved w pc
                    (withApp (withResults (<[i := f r]> (results (app s)))
                                          (app s)) s))
  \/ (results (app s) !! i = None /\ writes w i f pc s = moved w Crashed s).
Proof.
  unfold writes, writeAt. destruct (results (app s) !! i) as [r|]; eauto.
Qed.

Lemma reachable_ind_fire (P : Sys -> Prop) (s0 : Sys) :
  P s0 -> (forall e s s', P s -> Transition s e s' -> P s') ->
  forall s, reachable s0 s -> P s.
Proof.
  intros H0 Hstep s [es Hes]. revert s0 H0 Hes.
  induction es as [|e es IH]; intros s0 H0; simpl.
  - intros [= <-]. exact H0.
  - destruct (fire e s0) as [s1|] eqn:E; [|discriminate].
    apply IH. eapply Hstep; [exact H0|]. eapply fire_Transition, E.
Qed.

Lemma sameFrame_refl (a : App) : sameFrame a a.
Proof. repeat split. Qed.

Lemma writes_sameFrame (w i : nat) (f : KeyResult -> KeyResult) (pc : Worker)
    (s : Sys) :
  (forall r, key (f r) = key r) ->
  sameFrame (app s) (app (writes w i f pc s)).
Proof.
  intros Hf. destruct (writes_cases w i f pc s) as [(r & Hi & ->)|[_ ->]];
    [|apply sameFrame_refl].
  repeat split. simpl. rewrite list_fmap_insert, Hf.
  apply list_insert_id. now rewrite list_lookup_fmap, Hi.
Qed.

Lemma applyOutcome_key (o : Outcome) (r : KeyResult) :
  key (applyOutcome o r) = key r.
Proof. now destruct o. Qed.

(** A worker changes nothing of the application but entries, and of an
    entry never the key. *)
Lemma worker_sameFrame (e : Event) (s s' : Sys) :
  workerEvent e -> Transition s e s' -> sameFrame (app s) (app s').
Proof.
  intros He HT. destruct HT; try done; try apply sameFrame_refl.
  - apply (writes_sameFrame w i (setStatus validating) (Fetching i)
             {| app := app s; queue := rest; workers := workers s;
                joined := joined s |}). done.
  - now apply writes_sameFrame.
  - apply writes_sameFrame, applyOutcome_key.
  - apply writes_sameFrame, applyOutcome_key.
Qed.

Lemma revertValidating_key (r : KeyResult) : key (revertValidating r) = key r.
Proof. unfold revertValidating. now destruct (decide _). Qed.

Lemma Transition_keys (e : Event) (s s' : Sys) :
  Transition s e s' ->
  input (app s') = input (app s)
  /\ concurrencyLimit (app s') = concurrencyLimit (app s)
  /\ key <$> results (app s') = key <$> results (app s).
Proof.
  intros HT.
  destruct (decide (workerEvent e)) as [He|He].
  - destruct (worker_sameFrame e s s' He HT) as (? & _ & _ & ? & ?). done.
  - destruct HT; try (exfalso; apply He; exact I); try done.
    + repeat split. simpl. rewrite <- list_fmap_compose.
      apply list_fmap_ext. intros ? r _. apply revertValidating_key.
    + unfold join. destruct (decide _); done.
Qed.

Lemma seed_keys (uniqueKeys : list string) (table : list KeyResult) :
  key <$> seed uniqueKeys table = uniqueKeys.
Proof.
  unfold seed. destruct (keysMatch _ _) eqn:E; simpl.
  - now apply keysMatch_spec in E.
  - rewrite <- list_fmap_compose. apply list_fmap_id.
Qed.


Lemma updateStatus_inSync (st : RunState) (a : App) :
  statusInSync (updateStatus st a).
Proof. unfold statusInSync. simpl. reflexivity. Qed.

(** X8: in every state a run can reach, the status the interface shows is
    the status the workers read, except that [stopped] is shown as [idle]:
    the interface never shows [stopped], and it shows [running] or
    [paused] exactly when the workers read that. *)
Theorem shown_status_follows_statusRef (a : App) (s0 s : Sys) :
  handleValidate a = Run s0 -> reachable s0 s ->
  statusInSync (app s)
  /\ uiStatus (app s) <> stopped
  /\ (uiStatus (app s) = running <-> statusRef (app s) = running)
  /\ (uiStatus (app s) = paused <-> statusRef (app s) = paused).
Proof.
  intros Hrun Hs.
  enough (statusInSync (app s)) as Hsync.
  { split; [exact Hsync|]. unfold statusInSync in Hsync.
    destruct (decide (statusRef (app s) = stopped)) as [Hst|Hst];
      rewrite Hsync, ?Hst; repeat split; try congruence. }
  revert s Hs. apply reachable_ind_fire.
  - unfold handleValidate in Hrun. destruct (decide _); [discriminate|].
    destruct (_ =? 0); [discriminate|]. injection Hrun as <-.
    apply updateStatus_inSync.
  - intros e s s' Hsync HT.
    destruct (decide (workerEvent e)) as [He|He].
    + destruct (worker_sameFrame e s s' He HT) as (_ & Hui & Href & _).
      unfold statusInSync. now rewrite Hui, Href.
    + destruct HT; try (exfalso; apply He; exact I);
        try apply updateStatus_inSync.
      unfold join. simpl. destruct (decide _); [exact Hsync|].
      apply updateStatus_inSync.
Qed.

Lemma shown_status_follows_statusRef_witness :
  handleValidate two_key_app = Run two_key_run
  /\ forall s, reachable two_key_run s -> uiStatus (app s) <> stopped.
Proof.
  split; [reflexivity|]. intros s Hs.
  destruct (shown_status_follows_statusRef two_key_app two_key_run s)
    as (_ & H & _); [reflexivity|exact Hs|exact H].
Defined.

(** ** One worker per entry, in the order of the queue *)

Lemma fifo_update (q0 : list nat) (s s' : Sys) (w : nat) (pc0 pc : Worker) :
  fifoInv q0 s ->
  workers s !! w = Some pc0 ->
  held pc = None \/ held pc = held pc0 ->
  queue s' = queue s ->
  workers s' = <[w := pc]> (workers s) ->
  fifoInv q0 s'.
Proof.
  intros (taken & Hq & Htaken & Hone) Hw Hheld Hqueue Hws.
  exists taken. rewrite Hqueue, Hws. split; [exact Hq|]. split.
  - intros k pck i [[-> ->]|[_ Hk]]%lookup_insert_worker Hh; [|eauto].
    destruct Hheld as [Hn|He]; [congruence|]. rewrite He in Hh. eauto.
  - intros w1 w2 pc1 pc2 i
      [[-> ->]|[Hn1 H1]]%lookup_insert_worker
      [[-> ->]|[Hn2 H2]]%lookup_insert_worker Hh1 Hh2;
      [reflexivity| | |eauto].
    + destruct Hheld as [Hn|He]; [congruence|]. rewrite He in Hh1. eauto.
    + destruct Hheld as [Hn|He]; [congruence|]. rewrite He in Hh2. eauto.
Qed.

Lemma fifo_claim (q0 : list nat) (s s' : Sys) (w i : nat) (rest : list nat)
    (pc0 pc : Worker) :
  NoDup q0 -> fifoInv q0 s ->
  workers s !! w = Some pc0 -> held pc0 = None ->
  queue s = i :: rest -> queue s' = rest ->
  held pc = Some i \/ held pc = None ->
  workers s' = <[w := pc]> (workers s) ->
  fifoInv q0 s'.
Proof.
  intros Hnd (taken & Hq & Htaken & Hone) Hw Hheld0 Hqueue Hqueue' Hheld Hws.
  exists (taken ++ [i]). rewrite Hqueue', Hws.
  rewrite Hqueue in Hq.
  assert (i ∉ taken) as Hfresh.
  { rewrite Hq in Hnd. apply NoDup_app in Hnd as (_ & Hdis & _).
    intros Hin. apply (Hdis i Hin). apply elem_of_cons. now left. }
  split; [now rewrite <- app_assoc|]. split.
  - intros k pck j [[-> ->]|[_ Hk]]%lookup_insert_worker Hh;
      apply elem_of_app.
    + destruct Hheld as [He|He]; [|congruence].
      right. apply list_elem_of_singleton. congruence.
    + left. eauto.
  - intros w1 w2 pc1 pc2 j
      [[-> ->]|[Hn1 H1]]%lookup_insert_worker
      [[-> ->]|[Hn2 H2]]%lookup_insert_worker Hh1 Hh2;
      [reflexivity| | |eauto].
    + destruct Hheld as [He|He]; [|congruence].
      exfalso. apply Hfresh. assert (j = i) as -> by congruence. eauto.
    + destruct Hheld as [He|He]; [|congruence].
      exfalso. apply Hfresh. assert (j = i) as -> by congruence. eauto.
Qed.

Lemma Transition_fifo (q0 : list nat) (e : Event) (s s' : Sys) :
  NoDup q0 -> Transition s e s' -> fifoInv q0 s -> fifoInv q0 s'.
Proof.
  intros Hnd HT Hinv.
  assert (forall s1, workers s1 = workers s -> queue s1 = queue s ->
                     fifoInv q0 s1) as Hsame.
  { intros s1 Hws Hq. destruct Hinv as (taken & ? & ? & ?).
    exists taken. rewrite Hws, Hq. done. }
  assert (forall w i f pc pc0,
            workers s !! w = Some pc0 -> held pc = None ->
            fifoInv q0 (writes w i f pc s)) as Hrelease.
  { intros w i f pc pc0 Hw Hpc.
    destruct (writes_cases w i f pc s) as [(r & _ & ->)|[_ ->]].
    - apply (fifo_update q0 s _ w pc0 pc); auto.
    - apply (fifo_update q0 s _ w pc0 Crashed); auto. }
  destruct HT; try (apply Hsame; reflexivity).
  - apply (fifo_update q0 s _ w pc0 Done); auto.
  - apply (fifo_update q0 s _ w pc0 PauseWait); auto.
  - match goal with |- fifoInv _ (writes ?w ?i ?f ?pc ?s1) =>
      destruct (writes_cases w i f pc s1) as [(r & _ & ->)|[_ ->]]
    end.
    + apply (fifo_claim q0 s _ w i rest pc0 (Fetching i)); auto.
    + apply (fifo_claim q0 s _ w i rest pc0 Crashed); auto.
  - apply (fifo_update q0 s _ w (Fetching i) (ReadingBody i httpStatus)); auto.
  - now apply (Hrelease w i _ Done (Fetching i)).
  - now apply (Hrelease w i _ Ready (Fetching i)).
  - now apply (Hrelease w i _ Ready (ReadingBody i httpStatus)).
Qed.

Lemma StronglySorted_lt_NoDup (l : list nat) : StronglySorted lt l -> NoDup l.
Proof.
  induction 1 as [|x l _ IH Hall]; [apply NoDup_nil_2|].
  apply NoDup_cons. split; [|exact IH].
  intros Hin. eapply Forall_forall in Hall; [|exact Hin]. lia.
Qed.

(** X9: entries are taken from the head of the queue and never come back
    to it: in every state a run can reach, the queue is an end piece of
    the queue the run started with, every entry a worker holds has been
    taken from it and is no longer in it, and no two workers hold the same
    entry. *)
Theorem one_worker_per_entry (a : App) (s0 s : Sys) :
  handleValidate a = Run s0 -> reachable s0 s ->
  (exists taken, queue s0 = taken ++ queue s)
  /\ NoDup (queue s)
  /\ (forall w pc i, workers s !! w = Some pc -> held pc = Some i ->
                     i ∈ queue s0 /\ i ∉ queue s)
  /\ (forall w1 w2 pc1 pc2 i,
        workers s !! w1 = Some pc1 -> workers s !! w2 = Some pc2 ->
        held pc1 = Some i -> held pc2 = Some i -> w1 = w2).
Proof.
  intros Hrun Hs.
  assert (NoDup (queue s0)) as Hnd.
  { destruct (handleValidate_seeds a s0 Hrun) as (_ & -> & _).
    apply StronglySorted_lt_NoDup, buildQueue_sorted. }
  enough (fifoInv (queue s0) s) as (taken & Hq & Htaken & Hone).
  { split; [eauto|]. rewrite Hq in Hnd.
    pose proof Hnd as (_ & Hdis & Hnq)%NoDup_app.
    split; [exact Hnq|]. split; [|exact Hone].
    intros w pc i Hw Hh. pose proof (Htaken w pc i Hw Hh) as Hin.
    split; [rewrite Hq; apply elem_of_app; now left|]. now apply Hdis. }
  revert s Hs. apply reachable_ind_fire.
  - exists []. split; [reflexivity|].
    assert (forall w pc, workers s0 !! w = Some pc -> held pc = None) as Hready.
    { unfold handleValidate in Hrun. destruct (decide _); [discriminate|].
      destruct (_ =? 0); [discriminate|]. injection Hrun as <-. simpl.
      intros w pc [-> _]%lookup_replicate. reflexivity. }
    split.
    + intros w pc i Hw Hh. rewrite (Hready w pc Hw) in Hh. discriminate.
    + intros w1 w2 pc1 pc2 i Hw1 _ Hh. rewrite (Hready w1 pc1 Hw1) in Hh.
      discriminate.
  - intros e s s' Hinv HT. eapply Transition_fifo; eauto.
Qed.

Lemma one_worker_per_entry_witness :
  handleValidate two_key_app = Run two_key_run
  /\ forall s, reachable two_key_run s ->
       forall w1 w2 i,
         workers s !! w1 = Some (Fetching i) ->
         workers s !! w2 = Some (Fetching i) -> w1 = w2.
Proof.
  split; [reflexivity|]. intros s Hs w1 w2 i H1 H2.
  destruct (one_worker_per_entry two_key_app two_key_run s)
    as (_ & _ & _ & Hone); [reflexivity|exact Hs|].
  apply (Hone w1 w2 (Fetching i) (Fetching i) i); done.
Defined.

(** ** A run that is not stopped *)











(** ** A paused run *)








(** ** What the classification can give *)

Lemma filterModels_prefix (ids : list access) : forall ms,
  filterModels ids = Some ms -> Forall (fun m => hasModelPrefix m = true) ms.
Proof.
  induction ids as [|a ids IH]; intros ms; simpl.
  - intros [= <-]. constructor.
  - destruct a as [| |[| | |m| |]]; try discriminate.
    destruct (filterModels ids) as [l|]; [|discriminate].
    intros [= <-]. destruct (hasModelPrefix m) eqn:E; auto.
Qed.

Lemma httpStatusText_truthy (httpStatus : nat) :
  truthy (JStr (httpStatusText httpStatus)) = true.
Proof. unfold httpStatusText. rewrite append_cons. reflexivity. Qed.

Lemma errorMessageOf_truthy (httpStatus : nat) (body : bodyResult) :
  truthy (errorMessageOf httpStatus body) = true.
Proof.
  unfold errorMessageOf.
  destruct body as [errData|msg]; [|apply httpStatusText_truthy].
  destruct (prop "error" errData) as [| |e]; try apply httpStatusText_truthy.
  destruct (truthy e); [|apply httpStatusText_truthy].
  destruct (prop "message" e) as [| |m]; try apply httpStatusText_truthy.
  destruct (truthy m) eqn:E; [exact E|apply httpStatusText_truthy].
Qed.

(** X12: what a verdict tells about the response.  [Valid] is given only
    to a status in 200-299 with a JSON body, and its models are always in
    ascending order and all carry one of the seven prefixes.  [Invalid] is
    given only to another status, and its message is never empty (nor
    another falsy value).  A response that has arrived ends in [Error] only
    when its status is in 200-299, that is when the body could not be
    read as a list of models. *)
Theorem classification_verdicts (httpStatus : nat) (body : bodyResult) :
  match classifyResponse httpStatus body with
  | Valid ms =>
      ok httpStatus = true /\ (exists data, body = BodyJson data)
      /\ Sorted String.le ms
      /\ Forall (fun m => hasModelPrefix m = true) ms
  | Invalid m => ok httpStatus = false /\ truthy m = true
  | Error _ => ok httpStatus = true
  end.
Proof.
  unfold classifyResponse. destruct (ok httpStatus) eqn:Hok.
  - destruct body as [data|msg]; [|reflexivity].
    destruct (modelsOf data) as [site|ms] eqn:Hm; [reflexivity|].
    split; [reflexivity|]. split; [eauto|].
    unfold modelsOf in Hm.
    destruct (prop "data" data) as [| |[| | | |items|]]; try discriminate.
    destruct (mapId items) as [ids|]; [|discriminate].
    destruct (filterModels ids) as [l'|] eqn:Hf; [|discriminate].
    injection Hm as <-. split; [apply jsSort_sorted|].
    apply Forall_forall. intros m Hin.
    rewrite jsSort_permutation in Hin.
    apply filterModels_prefix in Hf.
    eapply Forall_forall in Hf; eauto.
  - split; [reflexivity|apply errorMessageOf_truthy].
Qed.

(** ** Starting again *)

Lemma handleValidate_same_keys (a : App) :
  uiStatus a <> paused ->
  uniqueKeysOf (input a) = key <$> results a -> results a <> [] ->
  exists s, handleValidate a = Run s
            /\ results (app s) = results a
            /\ queue s = buildQueue (results a).
Proof.
  intros Hui Hk Hne.
  assert (seed (uniqueKeysOf (input a)) (results a) = results a) as Hseed.
  { unfold seed. rewrite Hk.
    now rewrite (proj2 (keysMatch_spec _ _) eq_refl). }
  unfold handleValidate. destruct (decide _) as [|_]; [done|].
  destruct (length _ =? 0) eqn:E.
  { apply Nat.eqb_eq in E. rewrite Hk, length_fmap in E.
    destruct (results a); done. }
  eexists. split; [reflexivity|]. simpl. now rewrite Hseed.
Qed.

Lemma buildQueue_revert (table : list KeyResult) (i : nat) :
  i ∈ buildQueue (revertValidating <$> table)
  <-> exists r, table !! i = Some r /\ unfinished (status r).
Proof.
  rewrite buildQueue_elem. setoid_rewrite list_lookup_fmap.
  unfold unfinished, queued, revertValidating. split.
  - intros (r' & Hi & Hq).
    destruct (table !! i) as [r|]; [|discriminate].
    exists r. split; [reflexivity|]. injection Hi as <-.
    destruct (decide (status r = validating)) as [Hv|Hv]; simpl in Hq.
    + rewrite Hv. split; discriminate.
    + destruct Hq as [-> | ->]; split; discriminate.
  - intros (r & -> & Hv & Hi). eexists. split; [reflexivity|].
    destruct (decide (status r = validating)); simpl; [now left|].
    destruct (status r); try done; [now left|now right].
Qed.

Lemma revert_keeps_verdict (table : list KeyResult) (i : nat) (r : KeyResult) :
  table !! i = Some r -> ~ unfinished (status r) ->
  (revertValidating <$> table) !! i = Some r.
Proof.
  intros Hi Hu. rewrite list_lookup_fmap, Hi. simpl. f_equal.
  apply revertValidating_id. intros Hv. apply Hu. rewrite Hv.
  split; discriminate.
Qed.

Lemma revert_keys (table : list KeyResult) :
  key <$> (revertValidating <$> table) = key <$> table.
Proof.
  rewrite <- list_fmap_compose. apply list_fmap_ext.
  intros i r _. apply revertValidating_key.
Qed.

(** X13: a click on start after a stop, with the input as it was, keeps
    the table and takes up the work where it was left: the new queue holds
    exactly the entries that have no verdict yet (pending, in error, or in
    flight when the stop came), and every entry with a verdict is kept as
    it was. *)
Theorem restart_after_stop_takes_up_unfinished (a : App) :
  uniqueKeysOf (input a) = key <$> results a -> results a <> [] ->
  exists s, handleValidate (handleStop a) = Run s
    /\ results (app s) = revertValidating <$> results a
    /\ (forall i, i ∈ queue s
                  <-> exists r, results a !! i = Some r
                                /\ unfinished (status r))
    /\ (forall i r, results a !! i = Some r -> ~ unfinished (status r) ->
                    results (app s) !! i = Some r).
Proof.
  intros Hk Hne.
  destruct (handleValidate_same_keys (handleStop a)) as (s & Hrun & Hres & Hq).
  - simpl. discriminate.
  - simpl. now rewrite revert_keys.
  - simpl. now destruct (results a).
  - exists s. simpl in Hres, Hq. split; [exact Hrun|]. split; [exact Hres|].
    split.
    + intros i. rewrite Hq. apply buildQueue_revert.
    + intros i r Hi Hu. rewrite Hres. now apply revert_keeps_verdict.
Qed.

Lemma restart_after_stop_takes_up_unfinished_witness :
  exists s, handleValidate (handleStop (app paused_in_flight)) = Run s
            /\ forall i, i ∈ queue s <-> i = 0 \/ i = 1.
Proof.
  destruct (restart_after_stop_takes_up_unfinished (app paused_in_flight))
    as (s & Hrun & _ & Hq & _); [reflexivity|discriminate|].
  exists s. split; [exact Hrun|]. intros i. rewrite Hq. split.
  - intros (r & Hi & _). destruct i as [|[|i]]; [now left|now right|].
    discriminate.
  - intros [-> | ->]; eexists; (split; [reflexivity|]);
      split; discriminate.
Defined.

(** X14: the first run after the page has loaded a stored table, with
    the stored input, starts on a table without a [validating] entry; its
    queue holds exactly the stored entries without a verdict (an entry
    stored as [validating] counts as pending), and every stored verdict is
    kept. *)
Theorem first_run_after_reload (a : App) (parsed : list KeyResult) :
  uiStatus a <> paused ->
  uniqueKeysOf (input a) = key <$> parsed -> parsed <> [] ->
  exists s, handleValidate (withResults (loadResults parsed) a) = Run s
    /\ noValidating (results (app s))
    /\ (forall i, i ∈ queue s
                  <-> exists r, parsed !! i = Some r /\ unfinished (status r))
    /\ (forall i r, parsed !! i = Some r -> ~ unfinished (status r) ->
                    results (app s) !! i = Some r).
Proof.
  intros Hui Hk Hne.
  destruct (handleValidate_same_keys (withResults (loadResults parsed) a))
    as (s & Hrun & Hres & Hq).
  - exact Hui.
  - simpl. unfold loadResults. now rewrite revert_keys.
  - simpl. now destruct parsed.
  - exists s. simpl in Hres, Hq. split; [exact Hrun|]. split; [|split].
    + rewrite Hres. apply noValidating_count, loadResults_no_validating.
    + intros i. rewrite Hq. apply buildQueue_revert.
    + intros i r Hi Hu. rewrite Hres. now apply revert_keeps_verdict.
Qed.

Lemma first_run_after_reload_witness :
  exists s, handleValidate
              (withResults (loadResults (results (app paused_in_flight)))
                           two_key_app) = Run s
            /\ noValidating (results (app s))
            /\ forall i, i ∈ queue s <-> i = 0 \/ i = 1.
Proof.
  destruct (first_run_after_reload two_key_app
              (results (app paused_in_flight)))
    as (s & Hrun & Hno & Hq & _); [discriminate|reflexivity|discriminate|].
  exists s. split; [exact Hrun|]. split; [exact Hno|].
  intros i. rewrite Hq. split.
  - intros (r & Hi & _). destruct i as [|[|i]]; [now left|now right|].
    discriminate.
  - intros [-> | ->]; eexists; (split; [reflexivity|]);
      split; discriminate.
Defined.



(** ** Clearing the table *)

(** X16: after a stop the interface shows idle, so a click on clear is
    accepted although checks may still be in flight; the table is then
    empty, and when such a check comes to its end the write to its entry
    finds no entry: the exception leaves [processNext] (for a [fetch] that
    rejects, and for one that resolves under [stopped], from inside the
    [catch]), and the table stays empty. *)
Theorem clear_after_stop_ends_worker_by_exception (s : Sys) (w i : nat) :
  uiStatus (app s) = idle ->
  (forall msg, workers s !! w = Some (Fetching i) ->
     exists s', fire (FetchEnds w (Rejected msg))
                  (withApp (handleClear (app s)) s) = Some s'
                /\ workers s' !! w = Some Crashed
                /\ results (app s') = [])
  /\ (forall httpStatus,
        workers s !! w = Some (Fetching i) -> statusRef (app s) = stopped ->
        exists s', fire (FetchEnds w (Resolved httpStatus))
                     (withApp (handleClear (app s)) s) = Some s'
                   /\ workers s' !! w = Some Crashed
                   /\ results (app s') = [])
  /\ (forall httpStatus b,
        workers s !! w = Some (ReadingBody i httpStatus) ->
        exists s', fire (BodyEnds w b)
                     (withApp (handleClear (app s)) s) = Some s'
                   /\ workers s' !! w = Some Crashed
                   /\ results (app s') = []).
Proof.
  intros Hui.
  assert (results (handleClear (app s)) = []) as Hres
    by (unfold handleClear; now rewrite decide_True).
  assert (statusRef (handleClear (app s)) = statusRef (app s)) as Hst
    by (unfold handleClear; now rewrite decide_True).
  assert (forall f pc pc0, workers s !! w = Some pc0 ->
            workers (writes w i f pc (withApp (handleClear (app s)) s)) !! w
            = Some Crashed
            /\ results (app (writes w i f pc
                               (withApp (handleClear (app s)) s))) = [])
    as Hcrash.
  { intros f pc pc0 Hw. unfold writes, writeAt. simpl. rewrite Hres. simpl.
    split; [|exact Hres].
    apply list_lookup_insert_eq. eapply lookup_lt_Some, Hw. }
  split; [|split].
  - intros msg Hw. eexists. split; [simpl; rewrite Hw; reflexivity|].
    apply (Hcrash _ _ _ Hw).
  - intros httpStatus Hw Hstop. eexists.
    split; [simpl; rewrite Hw; reflexivity|].
    unfold fetchDone. simpl. rewrite Hst, decide_True by exact Hstop.
    apply (Hcrash _ _ _ Hw).
  - intros httpStatus b Hw. eexists.
    split; [simpl; rewrite Hw; reflexivity|].
    apply (Hcrash _ _ _ Hw).
Qed.

Lemma clear_after_stop_ends_worker_by_exception_witness :
  fireAll [Wake 0; ClickStop] one_key_run = Some stopped_in_flight
  /\ exists s', fire (FetchEnds 0 (Rejected "Failed to fetch"))
                  (withApp (handleClear (app stopped_in_flight))
                           stopped_in_flight) = Some s'
                /\ workers s' !! 0 = Some Crashed.
Proof.
  split; [reflexivity|].
  destruct (clear_after_stop_ends_worker_by_exception stopped_in_flight 0 0)
    as (Hrej & _); [reflexivity|].
  destruct (Hrej "Failed to fetch") as (s' & Hfire & Hw & _); [reflexivity|].
  exists s'. split; [exact Hfire|exact Hw].
Defined.

(** ** The detailed export *)

Lemma matchAll_without_token (text : string) :
  ~ containsToken text -> matchAll text = [].
Proof.
  intros H. destruct (matchAll text) as [|k ks] eqn:E; [reflexivity|].
  exfalso. apply H, containsToken_matchAll. rewrite E. discriminate.
Qed.

Lemma matchAll_detailedEntry (r : KeyResult) :
  isToken (key r) -> ~ containsToken (joinModels (models r)) ->
  matchAll (detailedEntry r) = [key r].
Proof.
  intros Hk Hm. unfold detailedEntry.
  rewrite (matchAll_sep newline newline_outside).
  now rewrite (matchAll_token _ Hk), (matchAll_without_token _ Hm).
Qed.

Lemma matchAll_blocks (l : list KeyResult) :
  Forall (fun r => isToken (key r)
                   /\ ~ containsToken (joinModels (models r))) l ->
  matchAll (String.concat (String newline (String newline ""))
              (detailedEntry <$> l))
  = key <$> l.
Proof.
  induction l as [|r [|r' l] IH]; intros Hall.
  - reflexivity.
  - apply Forall_cons in Hall as [[Hk Hm] _].
    now apply matchAll_detailedEntry.
  - apply Forall_cons in Hall as [[Hk Hm] Hall].
    change (matchAll
              (detailedEntry r
               +:+ (String newline (String newline "")
                    +:+ String.concat (String newline (String newline ""))
                          (detailedEntry <$> r' :: l)))
            = key r :: (key <$> r' :: l)).
    rewrite !append_cons, append_empty_l.
    rewrite (matchAll_sep newline newline_outside).
    rewrite (matchAll_sep_head newline newline_outside).
    now rewrite (matchAll_detailedEntry r Hk Hm), (IH Hall).
Qed.

(** X17: the detailed file of usable keys, read back by the scan, gives
    the keys of the [valid] entries, each once and in the order of the
    table, provided the keys have the credential shape and no list of
    models, as it is written into the file, has a piece of that shape. *)
Theorem detailed_export_reads_back (table : list KeyResult) :
  Forall (fun r => isToken (key r)
                   /\ ~ containsToken (joinModels (models r))) table ->
  matchAll (downloadValidKeysDetailed table)
  = key <$> filter (fun r => status r = valid) table.
Proof.
  intros Hall. unfold downloadValidKeysDetailed. apply matchAll_blocks.
  apply Forall_forall. intros r [_ Hr]%list_elem_of_filter.
  eapply Forall_forall in Hall; eauto.
Qed.

Lemma detailed_export_reads_back_witness :
  matchAll (downloadValidKeysDetailed export_table) = ["sk-A1"; "sk-C3"].
Proof.
  rewrite detailed_export_reads_back; [reflexivity|].
  repeat constructor;
    try (eexists; (split; [reflexivity|]);
         (split; [discriminate|repeat constructor]));
    intros H%containsToken_matchAll; apply H; reflexivity.
Defined.

(** ** Several calls of [handleValidate] over one table *)

Lemma handleValidate_cases (a : App) :
  (exists s, handleValidate a = Run s
             /\ input (app s) = input a
             /\ key <$> results (app s) = uniqueKeysOf (input a)
             /\ queue s = buildQueue (results (app s))
             /\ (forall w pc, workers s !! w = Some pc -> pc = Ready))
  \/ handleValidate a = NoKeys a
  \/ (uiStatus a = paused
      /\ handleValidate a = Resumed (updateStatus running a)).
Proof.
  unfold handleValidate. destruct (decide (uiStatus a = paused)) as [Hp|Hp].
  { right. right. done. }
  destruct (_ =? 0); [right; now left|]. left.
  eexists. split; [reflexivity|]. simpl. split; [reflexivity|].
  split; [apply seed_keys|]. split; [reflexivity|].
  intros w pc [-> _]%lookup_replicate. reflexivity.
Qed.

Lemma Step_inRange (n : nat) (ks : list string) (s s' : Sys) :
  Step s s' ->
  length (results (app s)) = n -> runInRange n (partOf ks s) ->
  length (results (app s')) = n /\ runInRange n (partOf ks s').
Proof.
  intros HS Hlen (Hqueue & Hhold & Hcrash). simpl in Hqueue, Hhold, Hcrash.
  unfold runInRange. simpl.
  destruct HS as
    [s s' Hws Hq Hres
    |s s' w pc0 pc1 Hw Hws Hq Hres Hnc Hheld
    |s s' w pc0 i r Hw Hheld Hq Hi Hres Hws
    |s s' w pc0 pc1 i r r' Hw Hheld Hpc1 Hnc Hq Hi Hr' Hres Hws
    |s s' w pc0 i Hw Hheld Hi Hres Hws].
  - rewrite Hws, Hq. split; [|done].
    destruct Hres as [-> | ->]; rewrite ?length_fmap; done.
  - rewrite Hws, Hq, Hres. split; [done|]. split; [done|]. split.
    + intros k pc i [[-> ->]|[_ Hk]]%lookup_insert_worker Hh; [|eauto].
      rewrite Hheld in Hh. eauto.
    + intros [Heq|Hin]%elem_of_insert_worker; done.
  - assert (i < n) as Hi' by (apply Hqueue; rewrite Hq; apply elem_of_cons;
                              now left).
    rewrite Hws, Hres, length_insert. split; [done|]. split; [|split].
    + intros j Hj. apply Hqueue. rewrite Hq. apply elem_of_cons. now right.
    + intros k pc j [[-> ->]|[_ Hk]]%lookup_insert_worker Hh; [|eauto].
      simpl in Hh. congruence.
    + intros [Heq|Hin]%elem_of_insert_worker; done.
  - rewrite Hws, Hq, Hres, length_insert. split; [done|]. split; [done|].
    split.
    + intros k pc j [[-> ->]|[_ Hk]]%lookup_insert_worker Hh; [|eauto].
      congruence.
    + intros [Heq|Hin]%elem_of_insert_worker; done.
  - exfalso. apply lookup_ge_None in Hi.
    assert (i < n) as Hi'.
    { destruct Hheld as [Hheld|[_ Hq]]; [eauto|].
      apply Hqueue. rewrite Hq. apply elem_of_cons. now left. }
    lia.
Qed.

Lemma pageFire_inv (text : string) (e : PageEvent) (p p' : Page) :
  keepsInput e -> pageInv text p -> pageFire e p = Some p' ->
  pageInv text p'.
Proof.
  intros He (Hin & Hkeys & Hruns). destruct e as [k e| | |text']; try done.
  - simpl. destruct (runs p !! k) as [r|] eqn:Hk; [|discriminate].
    destruct (fire e (asSys (shared p) r)) as [s'|] eqn:Hfire;
      [|discriminate].
    intros [= <-]. simpl.
    assert (runs p <> []) as Hne by (intros E; now rewrite E in Hk).
    specialize (Hkeys Hne).
    destruct (Transition_keys e _ _ (fire_Transition _ _ _ Hfire))
      as (Hin' & _ & Hk').
    simpl in Hin', Hk'.
    assert (rkeys r = uniqueKeysOf text
            /\ runInRange (length (uniqueKeysOf text)) r) as [Hrk Hrange]
      by (eapply Forall_lookup_1 in Hruns; eauto).
    unfold pageInv. simpl.
    split; [congruence|]. split; [intros _; congruence|].
    apply Forall_insert; [exact Hruns|]. split; [exact Hrk|].
    eapply (Step_inRange _ (rkeys r) (asSys (shared p) r) s');
      [eapply fire_Step, Hfire| |now destruct r].
    simpl. now rewrite <- Hkeys, length_fmap.
  - simpl. destruct (decide (uiStatus (shared p) = idle)) as [Hidle|];
      [|discriminate].
    destruct (handleValidate_cases (shared p))
      as [(s & -> & Hin' & Hk' & Hq & Hready)|[-> |[Hp _]]].
    + intros [= <-]. unfold pageInv. simpl. rewrite Hin in Hk'.
      split; [congruence|]. split; [done|].
      apply Forall_app. split; [exact Hruns|]. constructor; [|constructor].
      split; [simpl; congruence|]. split; [|split]; simpl.
      * intros i Hi. rewrite Hq in Hi. apply buildQueue_in_range in Hi.
        now rewrite <- Hk', length_fmap.
      * intros w pc i Hw Hh. rewrite (Hready w pc Hw) in Hh. discriminate.
      * intros (w & Hw)%list_elem_of_lookup. now apply Hready in Hw.
    + intros [= <-]. done.
    + congruence.
Qed.

Lemma pageFireAll_inv (text : string) (es : list PageEvent) :
  forall p p', Forall keepsInput es -> pageInv text p ->
               pageFireAll es p = Some p' -> pageInv text p'.
Proof.
  induction es as [|e es IH]; intros p p' Hes Hinv; simpl.
  - now intros [= <-].
  - destruct (pageFire e p) as [p1|] eqn:E; [|discriminate].
    apply Forall_cons in Hes as [He Hes].
    apply IH; [exact Hes|]. eapply pageFire_inv; eauto.
Qed.

Lemma fresh_page_inv (p : Page) :
  runs p = [] -> pageInv (input (shared p)) p.
Proof.
  intros Hr. split; [reflexivity|]. rewrite Hr. split; [done|constructor].
Qed.

(** C4: the number of workers a call starts is the bound, but the bound
    does not hold on the page.  Three keys, limit 1: the first check is in
    flight when the operator stops and starts again; the workers of the
    two calls then work side by side, and two entries are in
    [validating]. *)
Theorem restart_overruns_concurrency_limit :
  exists p,
    pageFireAll overlap_trace three_key_page = Some p
    /\ Z.min (clampConcurrency (concurrencyLimit (shared p))) 3 = 1%Z
    /\ rworkers <$> runs p = [[Fetching 1]; [Fetching 2]]
    /\ status <$> results (shared p) = [valid; validating; validating]
    /\ countValidating (results (shared p)) = 2.
Proof.
  destruct (pageFireAll overlap_trace three_key_page) as [p|] eqn:E;
    [|vm_compute in E; discriminate].
  exists p. split; [reflexivity|].
  vm_compute in E. injection E as <-. repeat split.
Qed.

(** X7: as long as the input is not changed and the table not cleared,
    however often the operator stops and starts again and whatever the
    workers of all calls do, the input stays as it is and the keys of the
    table are the [uniqueKeys] of every call, distinct and of the
    credential shape: the key [uniqueKeys[i]] a worker sends for entry [i]
    is the key of that entry. *)
Theorem every_call_sends_the_key_of_the_entry (es : list PageEvent)
    (p0 p : Page) :
  runs p0 = [] -> Forall keepsInput es -> pageFireAll es p0 = Some p ->
  input (shared p) = input (shared p0)
  /\ forall r, r ∈ runs p ->
       rkeys r = key <$> results (shared p)
       /\ (forall i, rkeys r !! i = key <$> results (shared p) !! i)
       /\ NoDup (key <$> results (shared p))
       /\ Forall (fun x => isToken (key x)) (results (shared p)).
Proof.
  intros H0 Hes Hrun.
  destruct (pageFireAll_inv (input (shared p0)) es p0 p Hes
              (fresh_page_inv p0 H0) Hrun) as (Hin & Hkeys & Hruns).
  split; [exact Hin|]. intros r Hr.
  assert (runs p <> []) as Hne by (intros E; rewrite E in Hr;
                                    now apply elem_of_nil in Hr).
  specialize (Hkeys Hne).
  eapply Forall_forall in Hruns as [Hrk _]; [|exact Hr].
  destruct (uniqueKeysOf_tokens (input (shared p0))) as (Hnd & Hall).
  split; [congruence|]. split.
  { intros i. now rewrite Hrk, <- Hkeys, list_lookup_fmap. }
  rewrite Hkeys. split; [exact Hnd|].
  assert (Forall isToken (key <$> results (shared p))) as Htok.
  { rewrite Hkeys. eapply Forall_impl; [exact Hall|]. now intros k [Hk' _]. }
  apply Forall_forall. intros x Hx.
  eapply Forall_forall in Htok; [exact Htok|].
  now apply list_elem_of_fmap_2.
Qed.

Lemma every_call_sends_the_key_of_the_entry_witness :
  exists p, pageFireAll overlap_trace three_key_page = Some p
            /\ length (runs p) = 2
            /\ forall r, r ∈ runs p -> rkeys r = ["sk-A"; "sk-B"; "sk-C"].
Proof.
  destruct (pageFireAll overlap_trace three_key_page) as [p|] eqn:E;
    [|vm_compute in E; discriminate].
  exists p. split; [reflexivity|].
  destruct (every_call_sends_the_key_of_the_entry overlap_trace
              three_key_page p) as [_ Hr];
    [reflexivity|repeat constructor|exact E|].
  split; [vm_compute in E; now injection E as <-|].
  intros r Hin. destruct (Hr r Hin) as (-> & _).
  vm_compute in E. now injection E as <-.
Defined.

(** X18: as long as the input is not changed and the table not cleared,
    however often the operator stops and starts again, no worker of any
    call ends by an exception: the table keeps its length, and every index
    in a queue or held by a worker is an index of the table, so no write
    misses its entry. *)
Theorem no_worker_ends_by_exception (es : list PageEvent) (p0 p : Page) :
  runs p0 = [] -> Forall keepsInput es -> pageFireAll es p0 = Some p ->
  forall r, r ∈ runs p ->
    (Crashed ∉ rworkers r)
    /\ length (results (shared p)) = length (rkeys r)
    /\ (forall i, i ∈ rqueue r -> i < length (results (shared p)))
    /\ (forall w pc i, rworkers r !! w = Some pc -> held pc = Some i ->
                       is_Some (results (shared p) !! i)).
Proof.
  intros H0 Hes Hrun r Hr.
  destruct (pageFireAll_inv (input (shared p0)) es p0 p Hes
              (fresh_page_inv p0 H0) Hrun) as (_ & Hkeys & Hruns).
  assert (runs p <> []) as Hne by (intros E; rewrite E in Hr;
                                    now apply elem_of_nil in Hr).
  specialize (Hkeys Hne).
  eapply Forall_forall in Hruns as [Hrk (Hq & Hh & Hc)]; [|exact Hr].
  assert (length (results (shared p))
          = length (uniqueKeysOf (input (shared p0)))) as Hlen
    by (now rewrite <- Hkeys, length_fmap).
  split; [exact Hc|]. split; [congruence|]. split.
  - intros i Hi. rewrite Hlen. now apply Hq.
  - intros w pc i Hw Hi. apply lookup_lt_is_Some_2. rewrite Hlen. eauto.
Qed.

Lemma no_worker_ends_by_exception_witness :
  exists p, pageFireAll overlap_trace three_key_page = Some p
            /\ length (runs p) = 2
            /\ forall r, r ∈ runs p -> Crashed ∉ rworkers r.
Proof.
  destruct (pageFireAll overlap_trace three_key_page) as [p|] eqn:E;
    [|vm_compute in E; discriminate].
  exists p. split; [reflexivity|].
  split; [vm_compute in E; now injection E as <-|].
  intros r Hin.
  destruct (no_worker_ends_by_exception overlap_trace three_key_page p)
    with (r := r) as (Hc & _); [reflexivity|repeat constructor|exact E| |];
    done.
Defined.

Lemma pageFire_stopped (e : PageEvent) (p p' : Page) :
  waitsForStart e -> pageFire e p = Some p' ->
  statusRef (shared p) = stopped -> noValidating (results (shared p)) ->
  statusRef (shared p') = stopped /\ noValidating (results (shared p')).
Proof.
  intros He Hfire Hst Hno. destruct e as [k e| | |text]; try done; simpl in *.
  - destruct (runs p !! k) as [r|]; [|discriminate].
    destruct (fire e (asSys (shared p) r)) as [s'|] eqn:E; [|discriminate].
    injection Hfire as <-. simpl.
    apply (fire_stopped e (asSys (shared p) r) s' He E); done.
  - injection Hfire as <-. simpl. unfold handleClear.
    destruct (decide _); [|done]. split; [exact Hst|constructor].
  - injection Hfire as <-. done.
Qed.

(** X19: after a stop, until the next click on start (pause and resume
    are not offered while the interface shows idle), whatever the workers
    of all calls do and whatever their requests return, and whether or not
    the operator clears the table or changes the input, the run state
    stays [stopped] and no entry is in [validating]. *)
Theorem stop_holds_until_next_start (es : list PageEvent) (k : nat)
    (p p1 p2 : Page) :
  pageFire (InRun k ClickStop) p = Some p1 ->
  Forall waitsForStart es ->
  pageFireAll es p1 = Some p2 ->
  statusRef (shared p2) = stopped
  /\ countValidating (results (shared p2)) = 0.
Proof.
  intros Hstop Hes. rewrite <- noValidating_count.
  assert (statusRef (shared p1) = stopped
          /\ noValidating (results (shared p1))) as [Hst Hno].
  { simpl in Hstop. destruct (runs p !! k) as [r|]; [|discriminate].
    injection Hstop as <-. simpl. apply handleStop_noValidating. }
  clear Hstop. revert p1 Hst Hno.
  induction Hes as [|e es He _ IH]; intros p1 Hst Hno; simpl.
  - intros [= <-]. done.
  - destruct (pageFire e p1) as [p'|] eqn:E; [|discriminate].
    destruct (pageFire_stopped e p1 p' He E Hst Hno). now apply IH.
Qed.

Lemma stop_holds_until_next_start_witness :
  exists p p1 p2,
    pageFireAll [ClickStart; InRun 0 (Wake 0)] three_key_page = Some p
    /\ pageFire (InRun 0 ClickStop) p = Some p1
    /\ pageFireAll [InRun 0 (FetchEnds 0 (Rejected "Failed to fetch"));
                    InRun 0 (Wake 0); SetInput "sk-Z"; ClickClear] p1
       = Some p2
    /\ statusRef (shared p2) = stopped
    /\ countValidating (results (shared p2)) = 0.
Proof.
  destruct (pageFireAll [ClickStart; InRun 0 (Wake 0)] three_key_page)
    as [p|] eqn:E0; [|vm_compute in E0; discriminate].
  destruct (pageFire (InRun 0 ClickStop) p) as [p1|] eqn:E1;
    [|vm_compute in E0; injection E0 as <-; vm_compute in E1; discriminate].
  destruct (pageFireAll [InRun 0 (FetchEnds 0 (Rejected "Failed to fetch"));
                         InRun 0 (Wake 0); SetInput "sk-Z"; ClickClear] p1)
    as [p2|] eqn:E2.
  - exists p, p1, p2. split; [reflexivity|]. split; [exact E1|].
    split; [exact E2|].
    apply (stop_holds_until_next_start
             [InRun 0 (FetchEnds 0 (Rejected "Failed to fetch"));
              InRun 0 (Wake 0); SetInput "sk-Z"; ClickClear]
             0 p p1 p2 E1); [|exact E2].
    repeat constructor.
  - vm_compute in E0. injection E0 as <-.
    vm_compute in E1. injection E1 as <-.
    vm_compute in E2. discriminate.
Defined.
